(** * rod: path-addressed Put/Get over a nested-bucket store

    A shallow embedding of [rod.go] (package [rod]) and of the primitives of
    the bolt store that it calls, followed by the properties of the
    put/get protocol. *)

From stdpp Require Import gmap strings list.
From Stdlib Require Import Strings.Ascii Strings.Byte.

Local Open Scope string_scope.
Local Open Scope list_scope.

#[local] Set Warnings "-register-all".

(** ** Go values *)

(** A Go [[]byte]: [None] is the nil slice, [Some l] a non-nil slice holding
    the bytes [l] (possibly none). *)
Definition bytes := option (list byte).

Definition len (s : bytes) : N :=
  match s with
  | None => 0%N
  | Some l => N.of_nat (length l)
  end.

(** [strings.Split(s, sep)] for a one-byte separator: the substrings between
    the separators, in order.  The result is never empty; splitting the empty
    string gives one empty substring. *)
Fixpoint strings_Split (s : string) (sep : ascii) : list string :=
  match s with
  | EmptyString => [""]
  | String c s' =>
      if decide (c = sep) then "" :: strings_Split s' sep
      else match strings_Split s' sep with
           | seg :: segs => String c seg :: segs
           | [] => [String c ""]
           end
  end.

(** ** The bolt store

    [github.com/boltdb/bolt] is an external dependency of the package.  The
    part of it that [rod.go] calls is modelled here after bolt's [bucket.go]:
    a bucket maps a name either to a value or to a nested bucket, both kinds
    of entry sharing one name space.  Transactions are open, as the package
    expects of its callers, and what a transaction holds is what the calls
    made on it so far have put there (nothing is committed or rolled back
    here). *)
Module bolt.

Inductive error :=
| ErrTxNotWritable
| ErrBucketNotFound
| ErrBucketExists
| ErrBucketNameRequired
| ErrKeyRequired
| ErrKeyTooLarge
| ErrValueTooLarge
| ErrIncompatibleValue.

Definition MaxKeySize : N := 32768.
Definition MaxValueSize : N := 2 ^ 31 - 2.

(** An entry of a bucket: a plain value, or a nested bucket (the entries
    bolt marks with [bucketLeafFlag]). *)
Inductive node :=
| Leaf (v : bytes)
| Nested (m : gmap string node).

Abbreviation tree := (gmap string node).

(** A transaction: whether it is writable, and the root bucket. *)
Record Tx := mkTx { writable : bool; root : tree }.

(** A [*bolt.Bucket] that is not nil: the bucket is designated by the names
    leading to it from the root bucket, the root bucket being [[]].  The
    package deletes no bucket, so that the handles it holds always designate
    one; for a handle that does not, the calls below answer nil or
    [ErrBucketNotFound]. *)
Definition Bucket := list string.

(** The bucket a handle designates. *)
Fixpoint resolve (m : tree) (b : Bucket) : option tree :=
  match b with
  | [] => Some m
  | name :: b' =>
      match m !! name with
      | Some (Nested c) => resolve c b'
      | _ => None
      end
  end.

(** In-place update of the bucket a handle designates. *)
Fixpoint modify (f : tree → tree) (m : tree) (b : Bucket) : tree :=
  match b with
  | [] => f m
  | name :: b' =>
      match m !! name with
      | Some (Nested c) => <[name := Nested (modify f c b')]> m
      | _ => m
      end
  end.

(** [Bucket.Bucket(name)]: the nested bucket of that name, nil when the
    name is absent or names a value. *)
Definition Bucket_Bucket (b : Bucket) (name : string) (tx : Tx)
  : option Bucket * Tx :=
  match resolve (root tx) b with
  | Some m =>
      match m !! name with
      | Some (Nested _) => (Some (b ++ [name]), tx)
      | _ => (None, tx)
      end
  | None => (None, tx)
  end.

(** [Bucket.CreateBucket(key)]. *)
Definition Bucket_CreateBucket (b : Bucket) (key : string) (tx : Tx)
  : (error + Bucket) * Tx :=
  if negb (writable tx) then (inl ErrTxNotWritable, tx)
  else if decide (key = "") then (inl ErrBucketNameRequired, tx)
  else match resolve (root tx) b with
       | None => (inl ErrBucketNotFound, tx)
       | Some m =>
           match m !! key with
           | Some (Nested _) => (inl ErrBucketExists, tx)
           | Some (Leaf _) => (inl ErrIncompatibleValue, tx)
           | None =>
               (inr (b ++ [key]),
                mkTx (writable tx)
                     (modify (insert key (Nested ∅)) (root tx) b))
           end
       end.

(** [Bucket.CreateBucketIfNotExists(key)]. *)
Definition Bucket_CreateBucketIfNotExists (b : Bucket) (key : string) (tx : Tx)
  : (error + Bucket) * Tx :=
  match Bucket_CreateBucket b key tx with
  | (inl ErrBucketExists, tx') =>
      match Bucket_Bucket b key tx' with
      | (Some child, tx'') => (inr child, tx'')
      | (None, tx'') => (inl ErrBucketNotFound, tx'')
      end
  | r => r
  end.

(** [Bucket.Put(key, value)]. *)
Definition Bucket_Put (b : Bucket) (key : string) (value : bytes) (tx : Tx)
  : option error * Tx :=
  if negb (writable tx) then (Some ErrTxNotWritable, tx)
  else if decide (key = "") then (Some ErrKeyRequired, tx)
  else if (MaxKeySize <? N.of_nat (String.length key))%N
       then (Some ErrKeyTooLarge, tx)
  else if (MaxValueSize <? len value)%N then (Some ErrValueTooLarge, tx)
  else match resolve (root tx) b with
       | None => (Some ErrBucketNotFound, tx)
       | Some m =>
           match m !! key with
           | Some (Nested _) => (Some ErrIncompatibleValue, tx)
           | _ =>
               (None,
                mkTx (writable tx)
                     (modify (insert key (Leaf value)) (root tx) b))
           end
       end.

(** [Bucket.Get(key)]: nil when the key is absent or names a nested
    bucket. *)
Definition Bucket_Get (b : Bucket) (key : string) (tx : Tx) : bytes * Tx :=
  match resolve (root tx) b with
  | Some m =>
      match m !! key with
      | Some (Leaf v) => (v, tx)
      | _ => (None, tx)
      end
  | None => (None, tx)
  end.

(** [Tx.Bucket] and [Tx.CreateBucketIfNotExists] act on the root bucket. *)
Definition Tx_Bucket (name : string) (tx : Tx) : option Bucket * Tx :=
  Bucket_Bucket [] name tx.

Definition Tx_CreateBucketIfNotExists (name : string) (tx : Tx)
  : (error + Bucket) * Tx :=
  Bucket_CreateBucketIfNotExists [] name tx.

End bolt.

(** ** encoding/json

    The serializer is an external collaborator; only the shape of its
    failures is fixed here, [json.Marshal] and [json.Unmarshal] themselves
    are left open where they are used. *)
Module json.

Inductive error :=
| MarshalError (msg : string)
| UnmarshalError (msg : string).

End json.

(** ** Package rod *)

(** A Go [error] value that is not nil.  The first three are the package's
    own; the others are surfaced unchanged from the store and from the
    serializer. *)
Inductive error :=
| ErrLocationMustHaveAtLeastOneBucket
| ErrInvalidLocationBucket
| ErrKeyNotProvided
| BoltError (e : bolt.error)
| JsonError (e : json.error).

Abbreviation nil := None (only parsing).

(** The loop of [Put] over [buckets[1:]] (rod.go, lines 67-78): [b] is the
    bucket reached so far.  The transaction is threaded through, so that an
    early return leaves the buckets created until then. *)
Fixpoint Put_loop (names : list string) (b : bolt.Bucket) (tx : bolt.Tx)
  : (error + bolt.Bucket) * bolt.Tx :=
  match names with
  | [] => (inr b, tx)
  | name :: names' =>
      if decide (name = "") then (inl ErrInvalidLocationBucket, tx)
      else match bolt.Bucket_CreateBucketIfNotExists b name tx with
           | (inl err, tx') => (inl (BoltError err), tx')
           | (inr b', tx') => Put_loop names' b' tx'
           end
  end.

(** [Put] (rod.go, lines 46-81).  The result is the error, nil on success,
    and the transaction as the call leaves it.  [buckets[0]] is [hd]: the
    default is never used, [strings.Split] giving at least one substring. *)
Definition Put (tx : bolt.Tx) (location key : string) (value : bytes)
  : option error * bolt.Tx :=
  if decide (location = "") then (Some ErrLocationMustHaveAtLeastOneBucket, tx)
  else if decide (key = "") then (Some ErrKeyNotProvided, tx)
  else
    let buckets := strings_Split location "." in
    if decide (hd "" buckets = "") then (Some ErrInvalidLocationBucket, tx)
    else
      match bolt.Tx_CreateBucketIfNotExists (hd "" buckets) tx with
      | (inl errCreateTopLevel, tx1) => (Some (BoltError errCreateTopLevel), tx1)
      | (inr b, tx1) =>
          match Put_loop (tail buckets) b tx1 with
          | (inl err, tx2) => (Some err, tx2)
          | (inr b, tx2) =>
              match bolt.Bucket_Put b key value tx2 with
              | (Some err, tx3) => (Some (BoltError err), tx3)
              | (None, tx3) => (nil, tx3)
              end
          end
      end.

(** The loop of [GetBucket] over [buckets[1:]] (rod.go, lines 152-162). *)
Fixpoint GetBucket_loop (names : list string) (b : bolt.Bucket) (tx : bolt.Tx)
  : (option bolt.Bucket * option error) * bolt.Tx :=
  match names with
  | [] => ((Some b, nil), tx)
  | name :: names' =>
      if decide (name = "") then ((nil, Some ErrInvalidLocationBucket), tx)
      else match bolt.Bucket_Bucket b name tx with
           | (None, tx') => ((nil, nil), tx')
           | (Some b', tx') => GetBucket_loop names' b' tx'
           end
  end.

(** [GetBucket] (rod.go, lines 134-165): the bucket, nil when a bucket of the
    chain is missing, and the error. *)
Definition GetBucket (tx : bolt.Tx) (location : string)
  : (option bolt.Bucket * option error) * bolt.Tx :=
  if decide (location = "")
  then ((nil, Some ErrLocationMustHaveAtLeastOneBucket), tx)
  else
    let buckets := strings_Split location "." in
    if decide (hd "" buckets = "") then ((nil, Some ErrInvalidLocationBucket), tx)
    else
      match bolt.Tx_Bucket (hd "" buckets) tx with
      | (None, tx1) => ((nil, nil), tx1)
      | (Some b, tx1) => GetBucket_loop (tail buckets) b tx1
      end.

(** [Get] (rod.go, lines 99-114). *)
Definition Get (tx : bolt.Tx) (location key : string)
  : (bytes * option error) * bolt.Tx :=
  match GetBucket tx location with
  | ((_, Some err), tx1) => ((nil, Some err), tx1)
  | ((None, None), tx1) => ((nil, nil), tx1)
  | ((Some b, None), tx1) =>
      if decide (key = "") then ((nil, Some ErrKeyNotProvided), tx1)
      else
        let '(v, tx2) := bolt.Bucket_Get b key tx1 in
        ((v, nil), tx2)
  end.

Section Json.

(** The values handed to [PutJson] and the targets handed to [GetJson]. *)
Variables V Out : Type.

(** [json.Marshal(v)]: an error, or the serialization (never nil). *)
Variable json_Marshal : V → json.error + list byte.

(** [json.Unmarshal(raw, &v)]: the target afterwards, and an error if the
    bytes could not be decoded. *)
Variable json_Unmarshal : list byte → Out → Out * option json.error.

(** [PutJson] (rod.go, lines 84-91). *)
Definition PutJson (tx : bolt.Tx) (location key : string) (v : V)
  : option error * bolt.Tx :=
  match json_Marshal v with
  | inl err => (Some (JsonError err), tx)
  | inr value => Put tx location key (Some value)
  end.

(** [GetJson] (rod.go, lines 118-131).  The result is the error, the target
    [v] afterwards and the transaction. *)
Definition GetJson (tx : bolt.Tx) (location key : string) (v : Out)
  : (option error * Out) * bolt.Tx :=
  match Get tx location key with
  | ((_, Some err), tx1) => ((Some err, v), tx1)
  | ((None, None), tx1) => ((nil, v), tx1)
  | ((Some raw, None), tx1) =>
      match json_Unmarshal raw v with
      | (v', Some err) => ((Some (JsonError err), v'), tx1)
      | (v', None) => ((nil, v'), tx1)
      end
  end.

End Json.

(** ** Vocabulary of the specification *)

(** The container names of a location, root first. *)
Definition segments (location : string) : list string :=
  strings_Split location ".".

(** A location of the data model: a non-empty string all of whose segments
    are non-empty. *)
Definition ValidLocation (location : string) : Prop :=
  location ≠ "" ∧ Forall (λ name, name ≠ "") (segments location).

(** The whole container chain that a location names is present. *)
Definition ChainExists (tx : bolt.Tx) (location : string) : Prop :=
  is_Some (bolt.resolve (bolt.root tx) (segments location)).

(** An error surfaced from the store. *)
Definition StorageFailure (e : error) : Prop :=
  match e with
  | BoltError _ => True
  | _ => False
  end.

(** No name along the path is taken by a plain value, so that every bucket
    of the path exists already or can be created. *)
Fixpoint creatable (m : bolt.tree) (names : list string) : bool :=
  match names with
  | [] => true
  | name :: names' =>
      match m !! name with
      | Some (bolt.Leaf _) => false
      | Some (bolt.Nested c) => creatable c names'
      | None => true
      end
  end.

(** The value held under a key of the bucket at the end of a path: nil when
    a bucket of the path is missing, the key absent, or the key the name of a
    nested bucket. *)
Definition value_at (m : bolt.tree) (path : list string) (key : string) : bytes :=
  match bolt.resolve m path with
  | Some c =>
      match c !! key with
      | Some (bolt.Leaf v) => v
      | _ => None
      end
  | None => None
  end.

(** [tx'] holds the values of [tx] and at least its buckets, and is writable
    when [tx] is. *)
Definition Extends (tx tx' : bolt.Tx) : Prop :=
  bolt.writable tx' = bolt.writable tx ∧
  (∀ path key, value_at (bolt.root tx') path key
               = value_at (bolt.root tx) path key) ∧
  (∀ path, is_Some (bolt.resolve (bolt.root tx) path) →
           is_Some (bolt.resolve (bolt.root tx') path)).

(** ** The earlier version of the package

    The repository keeps an earlier [rod.go], whose [Put] has none of the
    argument checks and leaves empty names and keys to the store. *)
Module legacy.

(** The loop of the earlier [Put] over [buckets[1:]] (unnamed/part_000, lines
    336-344). *)
Fixpoint Put_loop (names : list string) (b : bolt.Bucket) (tx : bolt.Tx)
  : (error + bolt.Bucket) * bolt.Tx :=
  match names with
  | [] => (inr b, tx)
  | name :: names' =>
      match bolt.Bucket_CreateBucketIfNotExists b name tx with
      | (inl err, tx') => (inl (BoltError err), tx')
      | (inr b', tx') => Put_loop names' b' tx'
      end
  end.

(** The earlier [Put] (unnamed/part_000, lines 321-347). *)
Definition Put (tx : bolt.Tx) (location key : string) (value : bytes)
  : option error * bolt.Tx :=
  let buckets := strings_Split location "." in
  if (length buckets <? 1)%nat
  then (Some ErrLocationMustHaveAtLeastOneBucket, tx)
  else
    match bolt.Tx_CreateBucketIfNotExists (hd "" buckets) tx with
    | (inl errCreateTopLevel, tx1) => (Some (BoltError errCreateTopLevel), tx1)
    | (inr b, tx1) =>
        match Put_loop (tail buckets) b tx1 with
        | (inl err, tx2) => (Some err, tx2)
        | (inr b, tx2) =>
            match bolt.Bucket_Put b key value tx2 with
            | (Some err, tx3) => (Some (BoltError err), tx3)
            | (None, tx3) => (nil, tx3)
            end
        end
    end.

End legacy.

(** Sample transactions. *)
Definition emptyTx : bolt.Tx := bolt.mkTx true ∅.
Definition readOnlyTx : bolt.Tx := bolt.mkTx false ∅.

(** A transaction in which the bucket [a] exists and holds the key [k]. *)
Definition sampleTx : bolt.Tx := (Put emptyTx "a" "k" (Some [x01])).2.

(** A sample serializer: a number is written as one byte, and numbers above
    255 cannot be written; nothing decodes from no bytes at all. *)
Definition sampleMarshal (n : N) : json.error + list byte :=
  match Byte.of_N n with
  | Some c => inr [c]
  | None => inl (json.MarshalError "unsupported value")
  end.

Definition sampleUnmarshal (raw : list byte) (out : N) : N * option json.error :=
  match raw with
  | [c] => (Byte.to_N c, None)
  | _ => (out, Some (json.UnmarshalError "unexpected end of JSON input"))
  end.

(** * Facts about the model *)

(** ** strings.Split *)

Lemma strings_Split_not_nil s sep : strings_Split s sep ≠ [].
Proof.
  destruct s as [|c s]; simpl; [done|].
  case_decide; [done|]. by destruct (strings_Split s sep).
Qed.

(** Joining the substrings with the separator gives the string back. *)
Lemma strings_Split_concat s sep :
  String.concat (String sep "") (strings_Split s sep) = s.
Proof.
  induction s as [|c s IH]; simpl; [done|].
  pose proof (strings_Split_not_nil s sep) as Hnil.
  destruct (strings_Split s sep) as [|seg segs] eqn:E; [done|].
  case_decide as Hc.
  - subst c. simpl in IH |- *. by rewrite IH.
  - destruct segs; simpl in IH |- *; by rewrite <-IH.
Qed.

Lemma segments_cons location :
  ∃ first rest, segments location = first :: rest.
Proof.
  unfold segments. pose proof (strings_Split_not_nil location ".") as H.
  destruct (strings_Split location "."); [done | eauto].
Qed.

(** ** Handles *)

Section handles.
Import bolt.

Lemma resolve_app (m : tree) (p q : Bucket) :
  resolve m (p ++ q) = resolve m p ≫= λ c, resolve c q.
Proof.
  revert m. induction p as [|name p IH]; intros m; simpl; [done|].
  destruct (m !! name) as [[v|c]|]; auto.
Qed.

Lemma resolve_snoc (m c : tree) (p : Bucket) (name : string) :
  resolve m p = Some c →
  resolve m (p ++ [name]) =
    match c !! name with Some (Nested d) => Some d | _ => None end.
Proof.
  intros H. rewrite resolve_app, H. simpl.
  by destruct (c !! name) as [[v|d]|].
Qed.

Lemma resolve_modify (f : tree → tree) (m c : tree) (p : Bucket) :
  resolve m p = Some c → resolve (modify f m p) p = Some (f c).
Proof.
  revert m. induction p as [|name p IH]; intros m; simpl.
  - by intros [= ->].
  - destruct (m !! name) as [[v|d]|] eqn:E; try done.
    intros H. rewrite lookup_insert_eq. by apply IH.
Qed.

Lemma resolve_prefix (m : tree) (p q : Bucket) :
  is_Some (resolve m (p ++ q)) → is_Some (resolve m p).
Proof.
  rewrite resolve_app. destruct (resolve m p); [eauto | by intros [? ?]].
Qed.

(** Lookups leave the transaction as it is. *)
Lemma Bucket_Bucket_tx b name tx : (Bucket_Bucket b name tx).2 = tx.
Proof.
  unfold Bucket_Bucket.
  destruct (resolve (root tx) b) as [m|]; [|done].
  by destruct (m !! name) as [[v|c]|].
Qed.

Lemma Bucket_Get_tx b key tx : (Bucket_Get b key tx).2 = tx.
Proof.
  unfold Bucket_Get.
  destruct (resolve (root tx) b) as [m|]; [|done].
  by destruct (m !! key) as [[v|c]|].
Qed.

Lemma Bucket_Bucket_resolve b name tx m :
  resolve (root tx) b = Some m →
  Bucket_Bucket b name tx =
    (match m !! name with Some (Nested _) => Some (b ++ [name]) | _ => None end,
     tx).
Proof.
  intros H. unfold Bucket_Bucket. rewrite H.
  by destruct (m !! name) as [[v|c]|].
Qed.

(** A failed creation changes nothing; a successful one returns the child
    handle, which designates a bucket afterwards.  The child is the bucket
    that was there, or an empty one. *)
Lemma CreateBucketIfNotExists_inl b key tx e tx' :
  Bucket_CreateBucketIfNotExists b key tx = (inl e, tx') → tx' = tx.
Proof.
  unfold Bucket_CreateBucketIfNotExists, Bucket_CreateBucket, Bucket_Bucket.
  destruct (writable tx); simpl; [|by intros [= _ <-]].
  case_decide; [by intros [= _ <-]|].
  destruct (resolve (root tx) b) as [m|] eqn:Hm; [|by intros [= _ <-]].
  destruct (m !! key) as [[v|c]|] eqn:E; simpl; rewrite ?Hm, ?E;
    intros H'; by simplify_eq.
Qed.

Lemma CreateBucketIfNotExists_inr b key tx b' tx' m :
  resolve (root tx) b = Some m →
  Bucket_CreateBucketIfNotExists b key tx = (inr b', tx') →
  b' = b ++ [key] ∧ writable tx = true ∧ writable tx' = true ∧
  ((∃ c, m !! key = Some (Nested c) ∧ tx' = tx ∧
         resolve (root tx') b' = Some c)
   ∨ (m !! key = None ∧ resolve (root tx') b' = Some ∅)).
Proof.
  intros Hm.
  unfold Bucket_CreateBucketIfNotExists, Bucket_CreateBucket, Bucket_Bucket.
  destruct (writable tx) eqn:Hw; simpl; [|done].
  case_decide; [done|]. rewrite Hm.
  destruct (m !! key) as [[v|c]|] eqn:E; simpl; rewrite ?Hm, ?E; [done| |].
  - intros [= <- <-]. repeat split; try done. left. exists c.
    repeat split; try done. by rewrite (resolve_snoc _ m), E.
  - intros [= <- <-]. repeat split; try done. right. split; [done|].
    simpl. rewrite (resolve_snoc _ (<[key:=Nested ∅]> m)).
    + by rewrite lookup_insert_eq.
    + by apply resolve_modify.
Qed.

Lemma CreateBucketIfNotExists_ok b key tx m :
  writable tx = true → key ≠ "" →
  resolve (root tx) b = Some m →
  (∀ v, m !! key ≠ Some (Leaf v)) →
  ∃ tx', Bucket_CreateBucketIfNotExists b key tx = (inr (b ++ [key]), tx').
Proof.
  intros Hw Hk Hm Hleaf.
  unfold Bucket_CreateBucketIfNotExists, Bucket_CreateBucket, Bucket_Bucket.
  rewrite Hw. simpl. case_decide; [done|]. rewrite Hm.
  destruct (m !! key) as [[v|c]|] eqn:E; simpl; rewrite ?Hm, ?E;
    [by destruct (Hleaf v)|eauto|eauto].
Qed.

End handles.

(** ** The two walks *)

Section walks.
Import bolt.

Implicit Types (names : list string) (b : Bucket) (tx : Tx) (m : tree).

Lemma creatable_empty names : creatable ∅ names = true.
Proof. destruct names; simpl; [done|]. by rewrite lookup_empty. Qed.

(** *** Read path *)

Lemma GetBucket_loop_tx names b tx : (GetBucket_loop names b tx).2 = tx.
Proof.
  revert b. induction names as [|name names IH]; intros b; simpl; [done|].
  case_decide; [done|].
  pose proof (Bucket_Bucket_tx b name tx) as Htx.
  destruct (Bucket_Bucket b name tx) as [[b'|] tx']; simpl in Htx; subst; auto.
Qed.

Lemma GetBucket_loop_app names1 names2 b tx :
  GetBucket_loop (names1 ++ names2) b tx =
    match GetBucket_loop names1 b tx with
    | ((Some b', None), tx') => GetBucket_loop names2 b' tx'
    | r => r
    end.
Proof.
  revert b. induction names1 as [|name names1 IH]; intros b; simpl; [done|].
  case_decide; [done|].
  pose proof (Bucket_Bucket_tx b name tx) as Htx.
  destruct (Bucket_Bucket b name tx) as [[b'|] tx']; simpl in Htx; subst; auto.
Qed.

(** Over non-empty names the read walk is a pure lookup of the path. *)
Lemma GetBucket_loop_valid names b tx m :
  resolve (root tx) b = Some m →
  Forall (λ name, name ≠ "") names →
  GetBucket_loop names b tx =
    ((match resolve m names with Some _ => Some (b ++ names) | None => None end,
      None), tx).
Proof.
  intros Hm Hne. revert b m Hm.
  induction Hne as [|name names Hname _ IH]; intros b m Hm; simpl.
  - by rewrite app_nil_r.
  - case_decide; [done|].
    rewrite (Bucket_Bucket_resolve _ _ _ m) by done.
    destruct (m !! name) as [[v|c]|] eqn:E; try done.
    rewrite (IH (b ++ [name]) c).
    + by rewrite <-app_assoc.
    + by rewrite (resolve_snoc _ m), E.
Qed.

Lemma GetBucket_eq tx location :
  location ≠ "" →
  GetBucket tx location = GetBucket_loop (segments location) [] tx.
Proof.
  intros Hloc. unfold GetBucket. case_decide; [done|].
  destruct (segments_cons location) as (first & rest & Hseg).
  fold (segments location). rewrite Hseg. simpl.
  case_decide; [done|]. unfold Tx_Bucket.
  by destruct (Bucket_Bucket [] first tx) as [[b'|] tx'].
Qed.

(** [Get] on a location of the data model. *)
Lemma Get_valid tx location key :
  ValidLocation location →
  Get tx location key =
    match resolve (root tx) (segments location) with
    | None => ((None, None), tx)
    | Some m =>
        if decide (key = "") then ((None, Some ErrKeyNotProvided), tx)
        else ((match m !! key with Some (Leaf v) => v | _ => None end, None),
              tx)
    end.
Proof.
  intros [Hloc Hne]. unfold Get. rewrite GetBucket_eq by done.
  rewrite (GetBucket_loop_valid _ _ _ (root tx)) by done.
  destruct (resolve (root tx) (segments location)) as [m|] eqn:Hm; [|done].
  simpl. case_decide; [done|]. unfold Bucket_Get. rewrite Hm.
  by destruct (m !! key) as [[v|c]|].
Qed.

(** A bucket missing before any empty segment is met gives a soft miss,
    whatever follows in the location and whatever the key. *)
Lemma Get_missing_prefix tx location key before rest :
  location ≠ "" →
  segments location = before ++ rest →
  Forall (λ name, name ≠ "") before →
  resolve (root tx) before = None →
  Get tx location key = ((None, None), tx).
Proof.
  intros Hloc Hseg Hne Hnone. unfold Get.
  rewrite GetBucket_eq, Hseg, GetBucket_loop_app by done.
  rewrite (GetBucket_loop_valid _ _ _ (root tx)) by done.
  by rewrite Hnone.
Qed.

(** *** Write path *)

Lemma Put_loop_app names1 names2 b tx :
  Put_loop (names1 ++ names2) b tx =
    match Put_loop names1 b tx with
    | (inr b', tx') => Put_loop names2 b' tx'
    | r => r
    end.
Proof.
  revert b tx. induction names1 as [|name names1 IH]; intros b tx; simpl.
  - done.
  - case_decide; [done|].
    by destruct (Bucket_CreateBucketIfNotExists b name tx) as [[e|b'] tx'].
Qed.

(** When the write walk gets through, every name was non-empty and the
    bucket it returns is the one at the end of the path, which exists. *)
Lemma Put_loop_inr names b tx b' tx' :
  is_Some (resolve (root tx) b) →
  Put_loop names b tx = (inr b', tx') →
  b' = b ++ names ∧ is_Some (resolve (root tx') b') ∧
  Forall (λ name, name ≠ "") names ∧ writable tx' = writable tx.
Proof.
  revert b tx. induction names as [|name names IH]; intros b tx [m Hm]; simpl.
  - intros [= <- <-]. rewrite app_nil_r. eauto.
  - case_decide; [done|].
    destruct (Bucket_CreateBucketIfNotExists b name tx) as [[e|b1] tx1] eqn:E;
      [done|].
    destruct (CreateBucketIfNotExists_inr _ _ _ _ _ _ Hm E)
      as (-> & Hw & Hw1 & Hres).
    intros Hloop. apply IH in Hloop as (-> & Hsome & Hne & Hw').
    + rewrite <-app_assoc in Hsome |- *.
      split_and!; [done|done|by apply Forall_cons|congruence].
    + destruct Hres as [(c & _ & _ & Hc)|[_ Hc]]; eauto.
Qed.

(** Over non-empty names the write walk can only be stopped by the
    store. *)
Lemma Put_loop_inl names b tx e tx' :
  Forall (λ name, name ≠ "") names →
  Put_loop names b tx = (inl e, tx') → StorageFailure e.
Proof.
  intros Hne. revert b tx.
  induction Hne as [|name names Hname _ IH]; intros b tx; simpl; [done|].
  case_decide; [done|].
  destruct (Bucket_CreateBucketIfNotExists b name tx) as [[e1|b1] tx1].
  - by intros [= <- <-].
  - apply IH.
Qed.

(** The write walk gets through on a writable transaction when no name of
    the path is taken by a plain value. *)
Lemma Put_loop_creatable names b tx m :
  writable tx = true →
  Forall (λ name, name ≠ "") names →
  resolve (root tx) b = Some m →
  creatable m names = true →
  ∃ tx', Put_loop names b tx = (inr (b ++ names), tx').
Proof.
  intros Hw Hne. revert b tx m Hw.
  induction Hne as [|name names Hname _ IH]; intros b tx m Hw Hm Hcr; simpl.
  - rewrite app_nil_r. eauto.
  - case_decide; [done|]. simpl in Hcr.
    destruct (CreateBucketIfNotExists_ok b name tx m) as [tx1 E]; try done.
    { intros v Hv. by rewrite Hv in Hcr. }
    rewrite E.
    destruct (CreateBucketIfNotExists_inr _ _ _ _ _ _ Hm E)
      as (_ & _ & Hw1 & Hres).
    replace (b ++ name :: names) with ((b ++ [name]) ++ names)
      by (by rewrite <-app_assoc).
    destruct Hres as [(c & Hc & _ & Hres)|[_ Hres]].
    + apply (IH _ _ c); try done. by rewrite Hc in Hcr.
    + apply (IH _ _ ∅); try done. apply creatable_empty.
Qed.

Lemma Put_eq tx location key value :
  location ≠ "" → key ≠ "" →
  Put tx location key value =
    match Put_loop (segments location) [] tx with
    | (inl err, tx2) => (Some err, tx2)
    | (inr b, tx2) =>
        match Bucket_Put b key value tx2 with
        | (Some err, tx3) => (Some (BoltError err), tx3)
        | (None, tx3) => (None, tx3)
        end
    end.
Proof.
  intros Hloc Hkey. unfold Put. do 2 (case_decide; [done|]).
  destruct (segments_cons location) as (first & rest & Hseg).
  fold (segments location). rewrite Hseg. simpl.
  case_decide; [done|]. unfold Tx_CreateBucketIfNotExists.
  by destruct (Bucket_CreateBucketIfNotExists [] first tx) as [[e|b'] tx'].
Qed.

Lemma Bucket_Put_None b key value tx tx' m :
  resolve (root tx) b = Some m →
  Bucket_Put b key value tx = (None, tx') →
  resolve (root tx') b = Some (<[key := Leaf value]> m).
Proof.
  intros Hm. unfold Bucket_Put.
  destruct (writable tx); simpl; [|done].
  case_decide; [done|].
  destruct (MaxKeySize <? _)%N; [done|].
  destruct (MaxValueSize <? _)%N; [done|]. rewrite Hm.
  destruct (m !! key) as [[v|c]|]; try done;
    intros [= <-]; simpl; by apply resolve_modify.
Qed.

End walks.

(** * Put and Get *)

Section put_get.
Import bolt.

Implicit Types (tx : Tx) (location key : string) (value : bytes).

(** The bucket at the end of the write walk is the one that was there, or
    a new, empty one. *)
Lemma Put_loop_terminal names b tx b' tx' m :
  resolve (root tx) b = Some m →
  Put_loop names b tx = (inr b', tx') →
  resolve (root tx') b' = Some (default ∅ (resolve m names)).
Proof.
  revert b tx m. induction names as [|name names IH]; intros b tx m Hm; simpl.
  - by intros [= <- <-].
  - case_decide; [done|].
    destruct (Bucket_CreateBucketIfNotExists b name tx) as [[e|b1] tx1] eqn:E;
      [done|].
    destruct (CreateBucketIfNotExists_inr _ _ _ _ _ _ Hm E)
      as (-> & _ & _ & [(c & Hc & -> & Hres)|[Hc Hres]]);
      intros Hloop; rewrite Hc.
    + by apply (IH _ _ c) in Hloop.
    + apply (IH _ _ ∅) in Hloop; [|done]. rewrite Hloop.
      destruct names; simpl; [done|]. by rewrite lookup_empty.
Qed.

(** When [Put] goes through. *)
Lemma Put_succeeds tx location key value :
  ValidLocation location → key ≠ "" →
  writable tx = true →
  (N.of_nat (String.length key) ≤ MaxKeySize)%N →
  (len value ≤ MaxValueSize)%N →
  creatable (root tx) (segments location) = true →
  (∀ c, default ∅ (resolve (root tx) (segments location)) !! key
        ≠ Some (Nested c)) →
  ∃ tx', Put tx location key value = (None, tx').
Proof.
  intros [Hloc Hne] Hkey Hw Hklen Hvlen Hcr Hfree.
  rewrite Put_eq by done.
  destruct (Put_loop_creatable _ [] tx (root tx) Hw Hne eq_refl Hcr)
    as [tx2 Hloop].
  rewrite Hloop.
  pose proof (Put_loop_terminal _ [] tx _ _ (root tx) eq_refl Hloop) as Hterm.
  destruct (Put_loop_inr _ [] tx _ _ (mk_is_Some _ (root tx) eq_refl) Hloop)
    as (_ & _ & _ & Hw2).
  unfold Bucket_Put. rewrite Hw2, Hw. simpl. case_decide; [done|].
  destruct (N.ltb_spec MaxKeySize (N.of_nat (String.length key))); [lia|].
  destruct (N.ltb_spec MaxValueSize (len value)); [lia|].
  simpl in Hterm. rewrite Hterm.
  destruct (default ∅ _ !! key) as [[v|c]|] eqn:E; eauto.
  by destruct (Hfree c).
Qed.

(** C1.  For every transaction, every location of the data model (non-empty,
    no empty segment), every non-empty key and every byte value, [Put]
    either succeeds, and then [Get] with the same location and key on the
    resulting transaction returns exactly the bytes written and no error,
    or fails with an error surfaced from the store.  It does succeed, with
    [Get] returning the bytes written, whenever the store has no ground to
    refuse: the transaction is writable, key and value are within the
    store's sizes, no name of the location is taken by a plain value, and
    the key is not the name of a bucket nested in the terminal bucket. *)
Theorem Put_then_Get tx location key value :
  ValidLocation location → key ≠ "" →
  ((∃ tx', Put tx location key value = (None, tx') ∧
           Get tx' location key = ((value, None), tx'))
   ∨ (∃ e tx', Put tx location key value = (Some e, tx') ∧ StorageFailure e))
  ∧ (writable tx = true →
     (N.of_nat (String.length key) ≤ MaxKeySize)%N →
     (len value ≤ MaxValueSize)%N →
     creatable (root tx) (segments location) = true →
     (∀ c, default ∅ (resolve (root tx) (segments location)) !! key
           ≠ Some (Nested c)) →
     ∃ tx', Put tx location key value = (None, tx') ∧
            Get tx' location key = ((value, None), tx')).
Proof.
  intros Hvalid Hkey. pose proof Hvalid as [Hloc Hne].
  assert (Hread : ∀ tx', Put tx location key value = (None, tx') →
                         Get tx' location key = ((value, None), tx')).
  { intros tx'. rewrite Put_eq by done.
    destruct (Put_loop (segments location) [] tx) as [[e|b] tx2] eqn:Hloop;
      [done|].
    destruct (Put_loop_inr _ [] tx _ _ (mk_is_Some _ (root tx) eq_refl) Hloop)
      as (-> & [m Hm] & _ & _).
    destruct (Bucket_Put _ key value tx2) as [[e|] tx3] eqn:Hput; [done|].
    intros [= <-]. rewrite Get_valid by done. simpl in Hm |- *.
    rewrite (Bucket_Put_None _ _ _ _ _ _ Hm Hput).
    case_decide; [done|]. by rewrite lookup_insert_eq. }
  split.
  - destruct (Put tx location key value) as [[e|] tx'] eqn:HPut.
    + right. exists e, tx'. split; [done|]. revert HPut.
      rewrite Put_eq by done.
      destruct (Put_loop (segments location) [] tx) as [[e1|b] tx2] eqn:Hloop.
      * intros [= <- _]. by eapply Put_loop_inl.
      * destruct (Bucket_Put b key value tx2) as [[e1|] tx3]; [|done].
        by intros [= <- _].
    + left. exists tx'. split; [done|]. by apply Hread.
  - intros Hw Hklen Hvlen Hcr Hfree.
    destruct (Put_succeeds tx location key value) as [tx' HPut]; try done.
    exists tx'. split; [done|]. by apply Hread.
Qed.

Lemma Put_then_Get_witness :
  ValidLocation "users.chilts" ∧ "email" ≠ "" ∧ writable emptyTx = true ∧
  (N.of_nat (String.length "email") ≤ MaxKeySize)%N ∧
  (len (Some [x61; x40; x62]) ≤ MaxValueSize)%N ∧
  creatable (root emptyTx) (segments "users.chilts") = true ∧
  (∀ c, default ∅ (resolve (root emptyTx) (segments "users.chilts")) !! "email"
        ≠ Some (Nested c)) ∧
  ∃ tx', Put emptyTx "users.chilts" "email" (Some [x61; x40; x62]) = (None, tx') ∧
         Get tx' "users.chilts" "email" = ((Some [x61; x40; x62], None), tx').
Proof.
  assert (Hv : ValidLocation "users.chilts").
  { split; [done|]. unfold segments. simpl. by repeat constructor. }
  assert (Hk : "email" ≠ "") by done.
  assert (Hw : writable emptyTx = true) by reflexivity.
  assert (Hklen : (N.of_nat (String.length "email") ≤ MaxKeySize)%N)
    by (by vm_compute).
  assert (Hvlen : (len (Some [x61; x40; x62]) ≤ MaxValueSize)%N)
    by (by vm_compute).
  assert (Hcr : creatable (root emptyTx) (segments "users.chilts") = true)
    by reflexivity.
  assert (Hfree : ∀ c,
            default ∅ (resolve (root emptyTx) (segments "users.chilts"))
              !! "email" ≠ Some (Nested c)) by (by vm_compute).
  exact (conj Hv (conj Hk (conj Hw (conj Hklen (conj Hvlen (conj Hcr (conj Hfree
           (proj2 (Put_then_Get emptyTx "users.chilts" "email"
                     (Some [x61; x40; x62]) Hv Hk)
                  Hw Hklen Hvlen Hcr Hfree)))))))).
Defined.

(** The scenario of the specification, evaluated: on an empty writable
    transaction the write goes through and the read returns the bytes. *)
Example scenario_users_chilts :
  let value := Some [x61; x40; x62] in
  let '(err, tx') := Put emptyTx "users.chilts" "email" value in
  err = None ∧ Get tx' "users.chilts" "email" = ((value, None), tx').
Proof. by vm_compute. Qed.

(** C2.  For every location of the data model whose container chain is not
    wholly present in the store, and every key (the empty key included),
    [Get] returns a nil value and no error, and leaves the transaction as
    it is. *)
Theorem Get_missing_chain tx location key :
  ValidLocation location → ¬ ChainExists tx location →
  Get tx location key = ((None, None), tx).
Proof.
  intros Hvalid Hmiss. rewrite Get_valid by done. unfold ChainExists in Hmiss.
  destruct (resolve (root tx) (segments location)) as [m|]; [|done].
  destruct Hmiss. eauto.
Qed.

Lemma Get_missing_chain_witness :
  ValidLocation "users.chilts" ∧ ¬ ChainExists emptyTx "users.chilts" ∧
  Get emptyTx "users.chilts" "" = ((None, None), emptyTx).
Proof.
  assert (Hv : ValidLocation "users.chilts").
  { split; [done|]. unfold segments. simpl. by repeat constructor. }
  assert (Hm : ¬ ChainExists emptyTx "users.chilts").
  { unfold ChainExists. vm_compute. by intros [? ?]. }
  exact (conj Hv (conj Hm (Get_missing_chain emptyTx "users.chilts" "" Hv Hm))).
Defined.

End put_get.

(** * Malformed locations and empty keys *)

Section validation.
Import bolt.

Implicit Types (tx : Tx) (location key : string) (value : bytes).

(** The read walk over a path with an empty name, when the buckets named
    before it are present. *)
Lemma GetBucket_empty_segment tx location before rest :
  location ≠ "" →
  segments location = before ++ "" :: rest →
  Forall (λ name, name ≠ "") before →
  GetBucket tx location =
    (match resolve (root tx) before with
     | Some _ => (None, Some ErrInvalidLocationBucket)
     | None => (None, None)
     end, tx).
Proof.
  intros Hloc Hseg Hne. rewrite GetBucket_eq, Hseg, GetBucket_loop_app by done.
  rewrite (GetBucket_loop_valid _ _ _ (root tx)) by done.
  by destruct (resolve (root tx) before).
Qed.

(** The write walk over a path with an empty name, when the buckets named
    before it are present or can be created. *)
Lemma Put_empty_segment tx location key value before rest :
  location ≠ "" → key ≠ "" →
  segments location = before ++ "" :: rest →
  Forall (λ name, name ≠ "") before →
  before = [] ∨ writable tx = true →
  creatable (root tx) before = true →
  ∃ tx', Put tx location key value = (Some ErrInvalidLocationBucket, tx') ∧
         is_Some (resolve (root tx') before) ∧
         (before = [] → tx' = tx).
Proof.
  intros Hloc Hkey Hseg Hne Hw Hcr.
  rewrite Put_eq, Hseg, Put_loop_app by done.
  destruct Hw as [-> | Hw].
  - exists tx. simpl. eauto.
  - destruct (Put_loop_creatable _ [] tx (root tx) Hw Hne eq_refl Hcr)
      as [tx2 Hloop].
    rewrite Hloop. exists tx2. simpl. split; [done|]. split.
    + by destruct (Put_loop_inr _ [] tx _ _
                     (mk_is_Some _ (root tx) eq_refl) Hloop) as (_ & ? & _).
    + intros ->. simpl in Hloop. by simplify_eq.
Qed.

(** Whenever [Put] answers [ErrInvalidLocationBucket], the buckets named
    before the first empty segment are present afterwards. *)
Lemma Put_InvalidSegment_inv tx location key value before rest tx' :
  segments location = before ++ "" :: rest →
  Forall (λ name, name ≠ "") before →
  Put tx location key value = (Some ErrInvalidLocationBucket, tx') →
  is_Some (resolve (root tx') before).
Proof.
  intros Hseg Hne HPut.
  destruct (decide (location = "")) as [->|Hloc].
  { unfold Put in HPut. by rewrite decide_True in HPut. }
  destruct (decide (key = "")) as [->|Hkey].
  { unfold Put in HPut. by rewrite decide_False, decide_True in HPut. }
  rewrite Put_eq, Hseg, Put_loop_app in HPut by done.
  destruct (Put_loop before [] tx) as [[e|b] tx2] eqn:Hloop.
  - apply Put_loop_inl in Hloop; [|done]. by simplify_eq.
  - simpl in HPut. simplify_eq.
    by destruct (Put_loop_inr _ [] tx _ _
                   (mk_is_Some _ (root tx) eq_refl) Hloop) as (-> & ? & _).
Qed.

(** C3, the claim as stated fails at the location [a..b]: on a store
    without the bucket [a] the read path answers with a soft miss, and the
    write path is stopped before it reaches the empty segment by a
    transaction that is not writable or by an empty key. *)
Lemma empty_segment_not_always_rejected :
  "" ∈ segments "a..b" ∧
  GetBucket emptyTx "a..b" = ((None, None), emptyTx) ∧
  Get emptyTx "a..b" "k" = ((None, None), emptyTx) ∧
  Put readOnlyTx "a..b" "k" (Some [x01])
    = (Some (BoltError ErrTxNotWritable), readOnlyTx) ∧
  Put emptyTx "a..b" "" (Some [x01]) = (Some ErrKeyNotProvided, emptyTx).
Proof.
  split_and!; try reflexivity.
  unfold segments. simpl. repeat constructor.
Qed.

(** C3, amended.  For a non-empty location with an empty segment, [before]
    being the segments that precede the first empty one: [GetBucket] and
    [Get] (with any key) fail with [ErrInvalidLocationBucket] when the
    buckets named by [before] are present, which is always so when the
    first segment is the empty one; [Put] with a non-empty key fails with
    [ErrInvalidLocationBucket] when these buckets are present or can be
    created (none of the names is taken by a plain value and, unless
    [before] is empty, the transaction is writable). *)
Theorem empty_segment_rejected tx location key value before rest :
  location ≠ "" →
  segments location = before ++ "" :: rest →
  Forall (λ name, name ≠ "") before →
  (is_Some (resolve (root tx) before) →
     GetBucket tx location = ((None, Some ErrInvalidLocationBucket), tx) ∧
     Get tx location key = ((None, Some ErrInvalidLocationBucket), tx)) ∧
  (key ≠ "" → before = [] ∨ writable tx = true →
   creatable (root tx) before = true →
     (Put tx location key value).1 = Some ErrInvalidLocationBucket).
Proof.
  intros Hloc Hseg Hne. split.
  - intros [m Hm]. unfold Get.
    rewrite (GetBucket_empty_segment _ _ before rest), Hm by done. done.
  - intros Hkey Hw Hcr.
    destruct (Put_empty_segment tx location key value before rest)
      as (tx' & -> & _); done.
Qed.

Lemma empty_segment_rejected_witness :
  "a..b" ≠ "" ∧ segments "a..b" = ["a"] ++ "" :: ["b"] ∧
  Forall (λ name, name ≠ "") ["a"] ∧
  GetBucket sampleTx "a..b" = ((None, Some ErrInvalidLocationBucket), sampleTx) ∧
  Get sampleTx "a..b" "k" = ((None, Some ErrInvalidLocationBucket), sampleTx) ∧
  (Put sampleTx "a..b" "k" (Some [x02])).1 = Some ErrInvalidLocationBucket.
Proof.
  assert (Hloc : "a..b" ≠ "") by done.
  assert (Hseg : segments "a..b" = ["a"] ++ "" :: ["b"]) by reflexivity.
  assert (Hne : Forall (λ name : string, name ≠ "") ["a"])
    by (by repeat constructor).
  destruct (empty_segment_rejected sampleTx "a..b" "k" (Some [x02])
              ["a"] ["b"] Hloc Hseg Hne) as [Hread Hwrite].
  assert (Ha : is_Some (resolve (root sampleTx) ["a"]))
    by (vm_compute; eauto).
  destruct (Hread Ha) as [HGetBucket HGet].
  refine (conj Hloc (conj Hseg (conj Hne (conj HGetBucket (conj HGet
            (Hwrite _ _ _))))));
    [done | by right | by vm_compute].
Defined.

(** C4, the claim as stated fails: with an empty key and a location whose
    bucket is absent, [Get] reports a soft miss and no error; with an empty
    key and an empty location, the error is the one of the location. *)
Lemma Get_empty_key_not_always_rejected :
  Get emptyTx "a" "" = ((None, None), emptyTx) ∧
  Get sampleTx "" "" = ((None, Some ErrLocationMustHaveAtLeastOneBucket), sampleTx).
Proof. split; reflexivity. Qed.

(** C4, amended.  For every transaction and every location of the data
    model whose container chain is present in the store, [Get] with an
    empty key fails with [ErrKeyNotProvided]. *)
Theorem Get_empty_key tx location :
  ValidLocation location → ChainExists tx location →
  Get tx location "" = ((None, Some ErrKeyNotProvided), tx).
Proof.
  intros Hvalid [m Hm]. rewrite Get_valid, Hm by done. by case_decide.
Qed.

Lemma Get_empty_key_witness :
  ValidLocation "a" ∧ ChainExists sampleTx "a" ∧
  Get sampleTx "a" "" = ((None, Some ErrKeyNotProvided), sampleTx).
Proof.
  assert (Hv : ValidLocation "a").
  { split; [done|]. unfold segments. simpl. by repeat constructor. }
  assert (Hc : ChainExists sampleTx "a").
  { unfold ChainExists. vm_compute. eauto. }
  exact (conj Hv (conj Hc (Get_empty_key sampleTx "a" Hv Hc))).
Defined.

End validation.

(** * Argument checks of Put *)

Section put_checks.
Import bolt.

Implicit Types (tx : Tx) (location key : string) (value : bytes).

Lemma Put_empty_location tx key value :
  Put tx "" key value = (Some ErrLocationMustHaveAtLeastOneBucket, tx).
Proof. done. Qed.

Lemma Put_empty_key tx location value :
  location ≠ "" → Put tx location "" value = (Some ErrKeyNotProvided, tx).
Proof. intros Hloc. unfold Put. by rewrite decide_False, decide_True. Qed.

Lemma Put_empty_first_segment tx location key value :
  location ≠ "" → key ≠ "" → hd "" (segments location) = "" →
  Put tx location key value = (Some ErrInvalidLocationBucket, tx).
Proof.
  intros Hloc Hkey Hfirst. unfold Put. fold (segments location).
  do 2 (rewrite decide_False by done). by rewrite decide_True.
Qed.

(** C8.  For every transaction, key and value, [Put] with the empty
    location fails with [ErrLocationMustHaveAtLeastOneBucket]; for every
    non-empty location, [Put] with the empty key fails with
    [ErrKeyNotProvided]. *)
Theorem Put_rejects_empty_arguments tx location key value :
  (Put tx "" key value).1 = Some ErrLocationMustHaveAtLeastOneBucket ∧
  (location ≠ "" → (Put tx location "" value).1 = Some ErrKeyNotProvided).
Proof.
  split; [done|]. intros Hloc. by rewrite Put_empty_key.
Qed.

Lemma Put_rejects_empty_arguments_witness :
  "users.chilts" ≠ "" ∧
  (Put sampleTx "" "email" (Some [x61])).1
    = Some ErrLocationMustHaveAtLeastOneBucket ∧
  (Put sampleTx "users.chilts" "" (Some [x61])).1 = Some ErrKeyNotProvided.
Proof.
  assert (Hloc : "users.chilts" ≠ "") by done.
  destruct (Put_rejects_empty_arguments sampleTx "users.chilts" "email"
              (Some [x61])) as [Hempty Hkey].
  exact (conj Hloc (conj Hempty (Hkey Hloc))).
Defined.

(** C10.  [Put] checks its arguments in a fixed order before it touches the
    store: the empty location first (with an empty location and an empty
    key the answer is [ErrLocationMustHaveAtLeastOneBucket]), then the empty
    key, then the first segment; in each of these cases the transaction is
    returned as it was, so that no bucket has been created. *)
Theorem Put_validation_order tx location key value :
  Put tx "" "" value = (Some ErrLocationMustHaveAtLeastOneBucket, tx) ∧
  Put tx "" key value = (Some ErrLocationMustHaveAtLeastOneBucket, tx) ∧
  (location ≠ "" → Put tx location "" value = (Some ErrKeyNotProvided, tx)) ∧
  (location ≠ "" → key ≠ "" → hd "" (segments location) = "" →
     Put tx location key value = (Some ErrInvalidLocationBucket, tx)).
Proof.
  split_and!.
  - apply Put_empty_location.
  - apply Put_empty_location.
  - apply Put_empty_key.
  - apply Put_empty_first_segment.
Qed.

Lemma Put_validation_order_witness :
  ".b" ≠ "" ∧ "k" ≠ "" ∧ hd "" (segments ".b") = "" ∧
  Put emptyTx "" "" (Some [x01])
    = (Some ErrLocationMustHaveAtLeastOneBucket, emptyTx) ∧
  Put emptyTx ".b" "" (Some [x01]) = (Some ErrKeyNotProvided, emptyTx) ∧
  Put emptyTx ".b" "k" (Some [x01]) = (Some ErrInvalidLocationBucket, emptyTx).
Proof.
  assert (Hloc : ".b" ≠ "") by done.
  assert (Hkey : "k" ≠ "") by done.
  assert (Hfirst : hd "" (segments ".b") = "") by reflexivity.
  destruct (Put_validation_order emptyTx ".b" "k" (Some [x01]))
    as (Hboth & _ & Hk & Hseg).
  exact (conj Hloc (conj Hkey (conj Hfirst
           (conj Hboth (conj (Hk Hloc) (Hseg Hloc Hkey Hfirst)))))).
Defined.

(** C9.  Let the first segment of the location be non-empty and a later one
    empty, [before] being the segments that precede the first empty one.
    Whenever [Put] returns [ErrInvalidLocationBucket], the buckets named by
    [before] are present in the transaction it leaves behind, so that the
    store has changed if they were not all there; and [Put] does return
    this error, with the buckets created, when the key is non-empty, the
    transaction writable and none of the names taken by a plain value. *)
Theorem Put_invalid_segment_not_atomic tx location key value before rest :
  segments location = before ++ "" :: rest →
  before ≠ [] →
  Forall (λ name, name ≠ "") before →
  (∀ tx', Put tx location key value = (Some ErrInvalidLocationBucket, tx') →
          is_Some (resolve (root tx') before) ∧
          (resolve (root tx) before = None → tx' ≠ tx)) ∧
  (key ≠ "" → writable tx = true → creatable (root tx) before = true →
   ∃ tx', Put tx location key value = (Some ErrInvalidLocationBucket, tx') ∧
          is_Some (resolve (root tx') before) ∧
          (resolve (root tx) before = None → tx' ≠ tx)).
Proof.
  intros Hseg Hbefore Hne.
  assert (Hchanged : ∀ tx', is_Some (resolve (root tx') before) →
                            resolve (root tx) before = None → tx' ≠ tx).
  { intros tx' [m Hm] Hnone ->. congruence. }
  assert (Hloc : location ≠ "").
  { intros ->. destruct before as [|name before]; [done|].
    inversion Hne as [|? ? Hname _]; subst.
    unfold segments in Hseg. simpl in Hseg. by simplify_eq. }
  split.
  - intros tx' HPut.
    pose proof (Put_InvalidSegment_inv _ _ _ _ _ _ _ Hseg Hne HPut). eauto.
  - intros Hkey Hw Hcr.
    destruct (Put_empty_segment tx location key value before rest)
      as (tx' & HPut & Hsome & _); eauto.
Qed.

Lemma Put_invalid_segment_not_atomic_witness :
  segments "a..b" = ["a"] ++ "" :: ["b"] ∧ ["a"] ≠ [] ∧
  Forall (λ name, name ≠ "") ["a"] ∧
  ∃ tx', Put emptyTx "a..b" "k" (Some [x01])
           = (Some ErrInvalidLocationBucket, tx') ∧
         is_Some (resolve (root tx') ["a"]) ∧ tx' ≠ emptyTx.
Proof.
  assert (Hseg : segments "a..b" = ["a"] ++ "" :: ["b"]) by reflexivity.
  assert (Hbefore : ["a"] ≠ ([] : list string)) by done.
  assert (Hne : Forall (λ name : string, name ≠ "") ["a"])
    by (by repeat constructor).
  destruct (Put_invalid_segment_not_atomic emptyTx "a..b" "k" (Some [x01])
              ["a"] ["b"] Hseg Hbefore Hne) as [_ Hdoes].
  destruct Hdoes as (tx' & HPut & Hsome & Hchanged); [done..|].
  refine (conj Hseg (conj Hbefore (conj Hne _))).
  exists tx'. split_and!; [done|done|]. by apply Hchanged.
Defined.

End put_checks.

(** * The read path leaves the store alone; the JSON layer *)

Section reads_and_json.
Import bolt.

Implicit Types (tx : Tx) (location key : string).

Lemma GetBucket_tx tx location : (GetBucket tx location).2 = tx.
Proof.
  destruct (decide (location = "")) as [->|Hloc]; [done|].
  rewrite GetBucket_eq by done. apply GetBucket_loop_tx.
Qed.

Lemma Get_tx tx location key : (Get tx location key).2 = tx.
Proof.
  unfold Get. pose proof (GetBucket_tx tx location) as Htx.
  destruct (GetBucket tx location) as [[[b|] [e|]] tx1];
    simpl in Htx; subst; try done.
  case_decide; [done|].
  pose proof (Bucket_Get_tx b key tx) as Htx.
  by destruct (Bucket_Get b key tx) as [v tx2].
Qed.

(** C5.  [GetBucket], [Get] and [GetJson] (whatever the decoder) hand the
    transaction back exactly as they received it, for every transaction and
    all arguments: the read path creates no bucket and changes nothing in
    the store. *)
Theorem reads_leave_store_unchanged
    (Out : Type) (json_Unmarshal : list byte → Out → Out * option json.error)
    tx location key (v : Out) :
  (GetBucket tx location).2 = tx ∧
  (Get tx location key).2 = tx ∧
  (GetJson Out json_Unmarshal tx location key v).2 = tx.
Proof.
  split_and!; [apply GetBucket_tx | apply Get_tx |].
  unfold GetJson. pose proof (Get_tx tx location key) as Htx.
  destruct (Get tx location key) as [[[raw|] [e|]] tx1];
    simpl in Htx; subst; try done.
  by destruct (json_Unmarshal raw v) as [v' [e|]].
Qed.

(** C6.  When serializing the value fails, [PutJson] returns that error
    and the transaction untouched ([Put] is not called); when it yields the
    bytes [b], [PutJson] is [Put] with [b] as the value. *)
Theorem PutJson_marshals_then_puts
    (V : Type) (json_Marshal : V → json.error + list byte)
    tx location key (v : V) :
  (∀ err, json_Marshal v = inl err →
     PutJson V json_Marshal tx location key v = (Some (JsonError err), tx)) ∧
  (∀ b, json_Marshal v = inr b →
     PutJson V json_Marshal tx location key v = Put tx location key (Some b)).
Proof.
  unfold PutJson. split; intros x Hx; by rewrite Hx.
Qed.

Lemma PutJson_marshals_then_puts_witness :
  sampleMarshal 300 = inl (json.MarshalError "unsupported value") ∧
  PutJson N sampleMarshal emptyTx "animal" "dog" 300%N
    = (Some (JsonError (json.MarshalError "unsupported value")), emptyTx) ∧
  sampleMarshal 7 = inr [x07] ∧
  PutJson N sampleMarshal emptyTx "animal" "dog" 7%N
    = Put emptyTx "animal" "dog" (Some [x07]).
Proof.
  assert (Hfail : sampleMarshal 300
                  = inl (json.MarshalError "unsupported value")) by reflexivity.
  assert (Hok : sampleMarshal 7 = inr [x07]) by reflexivity.
  destruct (PutJson_marshals_then_puts N sampleMarshal emptyTx "animal" "dog"
              300%N) as [Herr _].
  destruct (PutJson_marshals_then_puts N sampleMarshal emptyTx "animal" "dog"
              7%N) as [_ Hput].
  exact (conj Hfail (conj (Herr _ Hfail) (conj Hok (Hput _ Hok)))).
Defined.

(** C7.  When [Get] reports a soft miss (nil, no error), [GetJson] returns
    no error and the target as it was; when [Get] returns bytes, [GetJson]
    decodes them into the target and returns the decoder's error, if any,
    unchanged; an error of [Get] is passed on with the target as it was. *)
Theorem GetJson_decodes_what_Get_returns
    (Out : Type) (json_Unmarshal : list byte → Out → Out * option json.error)
    tx location key (v : Out) tx' :
  (Get tx location key = ((None, None), tx') →
     GetJson Out json_Unmarshal tx location key v = ((None, v), tx')) ∧
  (∀ raw, Get tx location key = ((Some raw, None), tx') →
     GetJson Out json_Unmarshal tx location key v =
       ((JsonError <$> (json_Unmarshal raw v).2, (json_Unmarshal raw v).1),
        tx')) ∧
  (∀ raw err, Get tx location key = ((raw, Some err), tx') →
     GetJson Out json_Unmarshal tx location key v = ((Some err, v), tx')).
Proof.
  unfold GetJson. split_and!.
  - by intros ->.
  - intros raw ->. by destruct (json_Unmarshal raw v) as [v' [e|]].
  - intros raw err ->. by destruct raw.
Qed.

Lemma GetJson_decodes_what_Get_returns_witness :
  Get emptyTx "animal" "dog" = ((None, None), emptyTx) ∧
  GetJson N sampleUnmarshal emptyTx "animal" "dog" 5%N
    = ((None, 5%N), emptyTx) ∧
  Get sampleTx "a" "k" = ((Some [x01], None), sampleTx) ∧
  GetJson N sampleUnmarshal sampleTx "a" "k" 5%N = ((None, 1%N), sampleTx) ∧
  Get sampleTx "a" "" = ((None, Some ErrKeyNotProvided), sampleTx) ∧
  GetJson N sampleUnmarshal sampleTx "a" "" 5%N
    = ((Some ErrKeyNotProvided, 5%N), sampleTx).
Proof.
  assert (Hmiss : Get emptyTx "animal" "dog" = ((None, None), emptyTx))
    by reflexivity.
  assert (Hhit : Get sampleTx "a" "k" = ((Some [x01], None), sampleTx))
    by (by vm_compute).
  assert (Herr : Get sampleTx "a" ""
                 = ((None, Some ErrKeyNotProvided), sampleTx))
    by (by vm_compute).
  destruct (GetJson_decodes_what_Get_returns N sampleUnmarshal
              emptyTx "animal" "dog" 5%N emptyTx) as (H1 & _ & _).
  destruct (GetJson_decodes_what_Get_returns N sampleUnmarshal
              sampleTx "a" "k" 5%N sampleTx) as (_ & H2 & _).
  destruct (GetJson_decodes_what_Get_returns N sampleUnmarshal
              sampleTx "a" "" 5%N sampleTx) as (_ & _ & H3).
  exact (conj Hmiss (conj (H1 Hmiss) (conj Hhit (conj (H2 _ Hhit)
           (conj Herr (H3 _ _ Herr)))))).
Defined.

End reads_and_json.

(** * What a write leaves in place *)

Section store_growth.
Import bolt.

Implicit Types (m c : tree) (b path : list string) (tx : Tx).

Lemma value_at_empty path key : value_at ∅ path key = None.
Proof.
  unfold value_at. destruct path as [|name path]; simpl; by rewrite lookup_empty.
Qed.

Lemma value_at_cons m name path key :
  value_at m (name :: path) key =
    match m !! name with
    | Some (Nested c) => value_at c path key
    | _ => None
    end.
Proof. unfold value_at. simpl. by destruct (m !! name) as [[v|c]|]. Qed.

Lemma value_at_nil m key :
  value_at m [] key = match m !! key with Some (Leaf v) => v | _ => None end.
Proof. done. Qed.

(** Replacing, in the bucket at [b], an entry that is not a nested bucket by
    a value or by a bucket without values changes what is read at [b] under
    that name, and nothing else. *)
Lemma value_at_modify_insert m b name (x : node) c path key :
  resolve m b = Some c →
  (∀ d, c !! name ≠ Some (Nested d)) →
  (∀ d, x = Nested d → ∀ path' key', value_at d path' key' = None) →
  value_at (modify (insert name x) m b) path key =
    if decide (path = b ∧ key = name)
    then match x with Leaf v => v | Nested _ => None end
    else value_at m path key.
Proof.
  intros Hc Hold Hx. revert m path Hc.
  induction b as [|n b IH]; intros m path Hc; simpl in Hc |- *.
  - injection Hc as ->. destruct path as [|q path].
    + rewrite !value_at_nil. case_decide as Hd.
      * destruct Hd as [_ ->]. by rewrite lookup_insert_eq.
      * rewrite lookup_insert_ne; [done|]. intros ->. by destruct Hd.
    + rewrite decide_False by (by intros [? _]).
      rewrite !value_at_cons. destruct (decide (name = q)) as [->|Hq].
      * rewrite lookup_insert_eq.
        destruct (c !! q) as [[v|d]|] eqn:E; [| by destruct (Hold d) |];
          destruct x as [w|d]; try done; by apply Hx.
      * by rewrite lookup_insert_ne.
  - destruct (m !! n) as [[v|d]|] eqn:E; try done.
    destruct path as [|q path].
    + rewrite decide_False by (by intros [? _]).
      rewrite !value_at_nil. destruct (decide (n = key)) as [->|Hk].
      * by rewrite lookup_insert_eq, E.
      * by rewrite lookup_insert_ne.
    + rewrite !value_at_cons. destruct (decide (n = q)) as [->|Hq].
      * rewrite lookup_insert_eq, E, (IH d path Hc).
        apply decide_ext. split; intros [H1 H2]; split; congruence.
      * rewrite lookup_insert_ne by done.
        rewrite decide_False; [done|]. intros [H1 _]. congruence.
Qed.

(** Such a replacement removes no bucket. *)
Lemma resolve_modify_insert_mono m b name (x : node) c path :
  resolve m b = Some c →
  (∀ d, c !! name ≠ Some (Nested d)) →
  is_Some (resolve m path) →
  is_Some (resolve (modify (insert name x) m b) path).
Proof.
  intros Hc Hold. revert m path Hc.
  induction b as [|n b IH]; intros m path Hc; simpl in Hc |- *.
  - injection Hc as ->. destruct path as [|q path]; simpl; [eauto|].
    destruct (decide (name = q)) as [->|Hq].
    + destruct (c !! q) as [[v|d]|] eqn:E; try by intros [? ?].
      by destruct (Hold d).
    + by rewrite lookup_insert_ne.
  - destruct (m !! n) as [[v|d]|] eqn:E; try done.
    destruct path as [|q path]; simpl; [eauto|].
    destruct (decide (n = q)) as [->|Hq].
    + rewrite lookup_insert_eq, E. by apply IH.
    + by rewrite lookup_insert_ne.
Qed.

(** An update that leaves the designated bucket as it is leaves everything
    as it is. *)
Lemma modify_id (f : tree → tree) m b c :
  resolve m b = Some c → f c = c → modify f m b = m.
Proof.
  revert m. induction b as [|n b IH]; intros m; simpl.
  - by intros [= ->].
  - destruct (m !! n) as [[v|d]|] eqn:E; try done.
    intros Hc Hf. rewrite (IH d) by done. by apply insert_id.
Qed.

Lemma Extends_refl tx : Extends tx tx.
Proof. by split_and!. Qed.

Lemma Extends_trans tx1 tx2 tx3 :
  Extends tx1 tx2 → Extends tx2 tx3 → Extends tx1 tx3.
Proof.
  intros (Hw1 & Hv1 & Hb1) (Hw2 & Hv2 & Hb2). split_and!.
  - congruence.
  - intros path key. by rewrite Hv2.
  - eauto.
Qed.

(** Creating a bucket changes no value and removes no bucket. *)
Lemma CreateBucketIfNotExists_Extends b key tx r tx' :
  is_Some (resolve (root tx) b) →
  Bucket_CreateBucketIfNotExists b key tx = (r, tx') → Extends tx tx'.
Proof.
  intros [m Hm].
  unfold Bucket_CreateBucketIfNotExists, Bucket_CreateBucket, Bucket_Bucket.
  destruct (writable tx) eqn:Hw; simpl;
    [|intros [= _ <-]; apply Extends_refl].
  case_decide; [intros [= _ <-]; apply Extends_refl|]. rewrite Hm.
  destruct (m !! key) as [[v|c]|] eqn:E; simpl; rewrite ?Hm, ?E;
    intros [= _ <-]; try apply Extends_refl.
  split_and!; simpl.
  - done.
  - intros path k.
    rewrite (value_at_modify_insert _ _ _ _ m); try done.
    + case_decide as Hd; [|done]. destruct Hd as [-> ->].
      unfold value_at. by rewrite Hm, E.
    + intros d. by rewrite E.
    + intros d [= <-] path' key'. apply value_at_empty.
  - intros path. apply (resolve_modify_insert_mono _ _ _ _ m); [done|].
    intros d. by rewrite E.
Qed.

Lemma Put_loop_Extends names b tx r tx' :
  is_Some (resolve (root tx) b) →
  Put_loop names b tx = (r, tx') → Extends tx tx'.
Proof.
  revert b tx. induction names as [|name names IH]; intros b tx Hb; simpl.
  - intros [= _ <-]. apply Extends_refl.
  - case_decide; [intros [= _ <-]; apply Extends_refl|].
    destruct (Bucket_CreateBucketIfNotExists b name tx) as [[e|b1] tx1] eqn:E.
    + intros [= _ <-]. by eapply CreateBucketIfNotExists_Extends.
    + intros Hloop. eapply Extends_trans.
      * by eapply CreateBucketIfNotExists_Extends.
      * eapply IH; [|done]. destruct Hb as [m Hm].
        destruct (CreateBucketIfNotExists_inr _ _ _ _ _ _ Hm E)
          as (-> & _ & _ & [(c & _ & _ & Hc)|[_ Hc]]); eauto.
Qed.

End store_growth.

(** * What Put does to the rest of the store *)

Section put_effects.
Import bolt.

Implicit Types (tx : Tx) (location key : string) (value : bytes).

(** Distinct locations name distinct paths. *)
Lemma segments_inj location location' :
  segments location = segments location' → location = location'.
Proof.
  intros H. rewrite <-(strings_Split_concat location "."),
    <-(strings_Split_concat location' "."). unfold segments in H. by rewrite H.
Qed.

(** [Get] on a location of the data model with a non-empty key reads the
    value at the path. *)
Lemma Get_value tx location key :
  ValidLocation location → key ≠ "" →
  Get tx location key
    = ((value_at (root tx) (segments location) key, None), tx).
Proof.
  intros Hvalid Hkey. rewrite Get_valid by done. unfold value_at.
  destruct (resolve (root tx) (segments location)) as [m|]; [|done].
  by rewrite decide_False.
Qed.

Lemma Bucket_Put_Some b key value tx e tx' :
  Bucket_Put b key value tx = (Some e, tx') → tx' = tx.
Proof.
  unfold Bucket_Put. destruct (writable tx); simpl; [|by intros [= _ <-]].
  case_decide; [by intros [= _ <-]|].
  destruct (MaxKeySize <? _)%N; [by intros [= _ <-]|].
  destruct (MaxValueSize <? _)%N; [by intros [= _ <-]|].
  destruct (resolve (root tx) b) as [m|]; [|by intros [= _ <-]].
  by destruct (m !! key) as [[v|c]|]; intros [= <-].
Qed.

Lemma Bucket_Put_None_inv b key value tx tx' m :
  resolve (root tx) b = Some m →
  Bucket_Put b key value tx = (None, tx') →
  writable tx = true ∧ key ≠ "" ∧
  (N.of_nat (String.length key) ≤ MaxKeySize)%N ∧
  (len value ≤ MaxValueSize)%N ∧
  (∀ d, m !! key ≠ Some (Nested d)) ∧
  tx' = mkTx true (modify (insert key (Leaf value)) (root tx) b).
Proof.
  intros Hm. unfold Bucket_Put. destruct (writable tx); simpl; [|done].
  case_decide; [done|].
  destruct (N.ltb_spec MaxKeySize (N.of_nat (String.length key))); [done|].
  destruct (N.ltb_spec MaxValueSize (len value)); [done|]. rewrite Hm.
  destruct (m !! key) as [[v|c]|] eqn:E; try done;
    intros [= <-]; split_and!; done.
Qed.

Lemma Bucket_Put_ok b key value tx m :
  writable tx = true → key ≠ "" →
  (N.of_nat (String.length key) ≤ MaxKeySize)%N →
  (len value ≤ MaxValueSize)%N →
  resolve (root tx) b = Some m →
  (∀ d, m !! key ≠ Some (Nested d)) →
  Bucket_Put b key value tx
    = (None, mkTx true (modify (insert key (Leaf value)) (root tx) b)).
Proof.
  intros Hw Hkey Hklen Hvlen Hm Hfree. unfold Bucket_Put. rewrite Hw. simpl.
  rewrite decide_False by done.
  destruct (N.ltb_spec MaxKeySize (N.of_nat (String.length key))); [lia|].
  destruct (N.ltb_spec MaxValueSize (len value)); [lia|]. rewrite Hm.
  destruct (m !! key) as [[v|c]|] eqn:E; try done. by destruct (Hfree c).
Qed.

(** The two ways [Put] can end: with an error, having at most created
    buckets; or with the walk gone through and the value inserted in the
    bucket at its end. *)
Lemma Put_cases tx location key value r tx' :
  Put tx location key value = (r, tx') →
  (is_Some r ∧ Extends tx tx')
  ∨ (r = None ∧ ValidLocation location ∧
     ∃ tx2 m,
       Put_loop (segments location) [] tx = (inr (segments location), tx2) ∧
       Extends tx tx2 ∧
       resolve (root tx2) (segments location) = Some m ∧
       Bucket_Put (segments location) key value tx2 = (None, tx')).
Proof.
  intros HPut.
  destruct (decide (location = "")) as [->|Hloc].
  { left. unfold Put in HPut. rewrite decide_True in HPut by done.
    simplify_eq. split; [eauto | apply Extends_refl]. }
  destruct (decide (key = "")) as [->|Hkey].
  { left. unfold Put in HPut.
    rewrite decide_False, decide_True in HPut by done.
    simplify_eq. split; [eauto | apply Extends_refl]. }
  rewrite Put_eq in HPut by done.
  destruct (Put_loop (segments location) [] tx) as [[e|b] tx2] eqn:Hloop.
  { left. simplify_eq. split; [eauto|].
    by eapply (Put_loop_Extends _ [] tx); [eexists|]. }
  assert (Hext : Extends tx tx2)
    by (by eapply (Put_loop_Extends _ [] tx); [eexists|]).
  destruct (Put_loop_inr _ [] tx _ _ (mk_is_Some _ (root tx) eq_refl) Hloop)
    as (-> & [m Hm] & Hne & _). simpl in *.
  destruct (Bucket_Put (segments location) key value tx2) as [[e|] tx3] eqn:HP.
  - left. simplify_eq. split; [eauto|].
    by rewrite (Bucket_Put_Some _ _ _ _ _ _ HP).
  - right. simplify_eq. split_and!; try done. by exists tx2, m.
Qed.

(** X1.  [Put], whatever it returns, leaves every other entry as it was: for
    a location of the data model and a non-empty key that are not both those
    of the write, [Get] returns afterwards what it returned before. *)
Theorem Put_keeps_other_entries
    tx location key value r tx' location' key' :
  Put tx location key value = (r, tx') →
  ValidLocation location' → key' ≠ "" →
  location' ≠ location ∨ key' ≠ key →
  (Get tx' location' key').1 = (Get tx location' key').1.
Proof.
  intros HPut Hvalid Hkey Hother. rewrite !Get_value by done. simpl.
  f_equal.
  destruct (Put_cases _ _ _ _ _ _ HPut)
    as [[_ (_ & Hv & _)] | (_ & _ & tx2 & m & _ & (_ & Hv & _) & Hm & HP)];
    [done|].
  destruct (Bucket_Put_None_inv _ _ _ _ _ _ Hm HP) as (_ & _ & _ & _ & Hfree & ->).
  simpl. rewrite (value_at_modify_insert _ _ _ _ m) by done.
  rewrite decide_False; [done|]. intros [Hseg ->].
  apply segments_inj in Hseg. by destruct Hother.
Qed.

Lemma Put_keeps_other_entries_witness :
  Put sampleTx "a.b" "k" (Some [x02])
    = (None, (Put sampleTx "a.b" "k" (Some [x02])).2) ∧
  ValidLocation "a" ∧ "k" ≠ "" ∧ ("a" ≠ "a.b" ∨ "k" ≠ "k") ∧
  (Get (Put sampleTx "a.b" "k" (Some [x02])).2 "a" "k").1
    = (Get sampleTx "a" "k").1.
Proof.
  assert (HPut : Put sampleTx "a.b" "k" (Some [x02])
                 = (None, (Put sampleTx "a.b" "k" (Some [x02])).2))
    by reflexivity.
  assert (Hv : ValidLocation "a").
  { split; [done|]. unfold segments. simpl. by repeat constructor. }
  assert (Hk : "k" ≠ "") by done.
  assert (Hother : "a" ≠ "a.b" ∨ "k" ≠ "k") by (by left).
  exact (conj HPut (conj Hv (conj Hk (conj Hother
           (Put_keeps_other_entries _ _ _ _ _ _ "a" "k" HPut Hv Hk Hother))))).
Defined.

(** X2.  A [Put] that returns an error has changed no value: every [Get]
    with a location of the data model and a non-empty key returns what it
    returned before, the entry aimed at included, and the transaction is
    writable if and only if it was. *)
Theorem failed_Put_changes_no_value tx location key value e tx' location' key' :
  Put tx location key value = (Some e, tx') →
  ValidLocation location' → key' ≠ "" →
  (Get tx' location' key').1 = (Get tx location' key').1 ∧
  writable tx' = writable tx.
Proof.
  intros HPut Hvalid Hkey. rewrite !Get_value by done. simpl.
  destruct (Put_cases _ _ _ _ _ _ HPut) as [[_ (Hw & Hv & _)] | (? & _)];
    [|done].
  by rewrite Hv.
Qed.

Lemma failed_Put_changes_no_value_witness :
  Put sampleTx "a..b" "k" (Some [x02])
    = (Some ErrInvalidLocationBucket, (Put sampleTx "a..b" "k" (Some [x02])).2) ∧
  ValidLocation "a" ∧ "k" ≠ "" ∧
  (Get (Put sampleTx "a..b" "k" (Some [x02])).2 "a" "k").1
    = (Get sampleTx "a" "k").1 ∧
  writable (Put sampleTx "a..b" "k" (Some [x02])).2 = writable sampleTx.
Proof.
  assert (HPut : Put sampleTx "a..b" "k" (Some [x02])
                 = (Some ErrInvalidLocationBucket,
                    (Put sampleTx "a..b" "k" (Some [x02])).2))
    by reflexivity.
  assert (Hv : ValidLocation "a").
  { split; [done|]. unfold segments. simpl. by repeat constructor. }
  assert (Hk : "k" ≠ "") by done.
  exact (conj HPut (conj Hv (conj Hk
           (failed_Put_changes_no_value _ _ _ _ _ _ "a" "k" HPut Hv Hk)))).
Defined.

(** X3.  [Put], whatever it returns, removes no bucket: a container chain
    that was present is present afterwards. *)
Theorem Put_keeps_buckets tx location key value r tx' location' :
  Put tx location key value = (r, tx') →
  ChainExists tx location' → ChainExists tx' location'.
Proof.
  intros HPut Hchain. unfold ChainExists in *.
  destruct (Put_cases _ _ _ _ _ _ HPut)
    as [[_ (_ & _ & Hb)] | (_ & _ & tx2 & m & _ & (_ & _ & Hb) & Hm & HP)];
    [eauto|].
  destruct (Bucket_Put_None_inv _ _ _ _ _ _ Hm HP) as (_ & _ & _ & _ & Hfree & ->).
  simpl. apply (resolve_modify_insert_mono _ _ _ _ m); eauto.
Qed.

Lemma Put_keeps_buckets_witness :
  Put sampleTx "a" "b" (Some [x02])
    = (None, (Put sampleTx "a" "b" (Some [x02])).2) ∧
  ChainExists sampleTx "a" ∧
  ChainExists (Put sampleTx "a" "b" (Some [x02])).2 "a".
Proof.
  assert (HPut : Put sampleTx "a" "b" (Some [x02])
                 = (None, (Put sampleTx "a" "b" (Some [x02])).2))
    by reflexivity.
  assert (Hc : ChainExists sampleTx "a").
  { unfold ChainExists. vm_compute. eauto. }
  exact (conj HPut (conj Hc (Put_keeps_buckets _ _ _ _ _ _ "a" HPut Hc))).
Defined.

End put_effects.

(** * When Put goes through, and what repeating it does *)

Section put_success.
Import bolt.

Implicit Types (tx : Tx) (location key : string) (value : bytes).

(** The write walk only gets through a path none of whose names is taken by
    a plain value. *)
Lemma Put_loop_inr_creatable names b tx b' tx' m :
  resolve (root tx) b = Some m →
  Put_loop names b tx = (inr b', tx') → creatable m names = true.
Proof.
  revert b tx m. induction names as [|name names IH]; intros b tx m Hm; simpl;
    [done|].
  case_decide; [done|].
  destruct (Bucket_CreateBucketIfNotExists b name tx) as [[e|b1] tx1] eqn:E;
    [done|].
  destruct (CreateBucketIfNotExists_inr _ _ _ _ _ _ Hm E)
    as (-> & _ & _ & [(c & Hc & -> & Hres)|[Hc Hres]]);
    intros Hloop; rewrite Hc; [|done].
  by eapply IH.
Qed.

(** Over buckets that are all there, the write walk changes nothing. *)
Lemma Put_loop_existing names b tx :
  writable tx = true →
  Forall (λ name, name ≠ "") names →
  is_Some (resolve (root tx) (b ++ names)) →
  Put_loop names b tx = (inr (b ++ names), tx).
Proof.
  intros Hw Hne. revert b.
  induction Hne as [|name names Hname _ IH]; intros b Hsome; simpl.
  - by rewrite app_nil_r.
  - rewrite decide_False by done.
    replace (b ++ name :: names) with ((b ++ [name]) ++ names) in *
      by (by rewrite <-app_assoc).
    pose proof (resolve_prefix _ _ _ Hsome) as [c Hc].
    pose proof (resolve_prefix _ _ _ (mk_is_Some _ _ Hc)) as [m Hm].
    rewrite (resolve_snoc _ m) in Hc by done.
    destruct (m !! name) as [[v|d]|] eqn:E; try done.
    unfold Bucket_CreateBucketIfNotExists, Bucket_CreateBucket, Bucket_Bucket.
    rewrite Hw. simpl. rewrite decide_False by done. rewrite Hm, E. simpl.
    rewrite Hm, E. by apply IH.
Qed.

(** X4.  [Put] succeeds exactly when the location is one of the data model,
    the key is non-empty and within the store's key size, the value within
    its value size, the transaction writable, no name of the location is
    taken by a plain value, and the key is not the name of a bucket nested
    in the terminal bucket. *)
Theorem Put_succeeds_iff tx location key value :
  (∃ tx', Put tx location key value = (None, tx'))
  ↔ ValidLocation location ∧ key ≠ "" ∧ writable tx = true ∧
    (N.of_nat (String.length key) ≤ MaxKeySize)%N ∧
    (len value ≤ MaxValueSize)%N ∧
    creatable (root tx) (segments location) = true ∧
    (∀ c, default ∅ (resolve (root tx) (segments location)) !! key
          ≠ Some (Nested c)).
Proof.
  split.
  - intros [tx' HPut].
    destruct (Put_cases _ _ _ _ _ _ HPut)
      as [[[? [=]] _] | (_ & Hvalid & tx2 & m & Hloop & (Hw & _) & Hm & HP)].
    destruct (Bucket_Put_None_inv _ _ _ _ _ _ Hm HP)
      as (Hw2 & Hkey & Hklen & Hvlen & Hfree & _).
    pose proof (Put_loop_terminal _ [] tx _ _ (root tx) eq_refl Hloop) as Hterm.
    rewrite Hm in Hterm. injection Hterm as <-.
    split_and!; try done.
    + congruence.
    + by eapply (Put_loop_inr_creatable _ [] tx).
  - intros (Hvalid & Hkey & Hw & Hklen & Hvlen & Hcr & Hfree).
    by apply Put_succeeds.
Qed.

Lemma Put_succeeds_iff_witness :
  (ValidLocation "a.b" ∧ "k" ≠ "" ∧ writable sampleTx = true ∧
   (N.of_nat (String.length "k") ≤ MaxKeySize)%N ∧
   (len (Some [x02]) ≤ MaxValueSize)%N ∧
   creatable (root sampleTx) (segments "a.b") = true ∧
   (∀ c, default ∅ (resolve (root sampleTx) (segments "a.b")) !! "k"
         ≠ Some (Nested c))) ∧
  (∃ tx', Put sampleTx "a.b" "k" (Some [x02]) = (None, tx')) ∧
  ¬ (∃ tx', Put sampleTx "a.k" "z" (Some [x02]) = (None, tx')).
Proof.
  assert (Hcond : ValidLocation "a.b" ∧ "k" ≠ "" ∧ writable sampleTx = true ∧
    (N.of_nat (String.length "k") ≤ MaxKeySize)%N ∧
    (len (Some [x02]) ≤ MaxValueSize)%N ∧
    creatable (root sampleTx) (segments "a.b") = true ∧
    (∀ c, default ∅ (resolve (root sampleTx) (segments "a.b")) !! "k"
          ≠ Some (Nested c))).
  { split_and!; try done.
    split; [done|]. unfold segments. simpl. by repeat constructor. }
  refine (conj Hcond (conj (proj2 (Put_succeeds_iff _ _ _ _) Hcond) _)).
  intros Hex.
  apply (proj1 (Put_succeeds_iff _ _ _ _)) in Hex
    as (_ & _ & _ & _ & _ & Hcr & _).
  by vm_compute in Hcr.
Defined.

(** X5.  On a transaction that is not writable [Put] always returns an error
    and hands the transaction back unchanged; for a location of the data
    model and a non-empty key the error is the store's
    [ErrTxNotWritable]. *)
Theorem Put_needs_writable tx location key value :
  writable tx = false →
  (∃ e, Put tx location key value = (Some e, tx)) ∧
  (ValidLocation location → key ≠ "" →
   Put tx location key value = (Some (BoltError ErrTxNotWritable), tx)).
Proof.
  intros Hw.
  assert (Hgen : location ≠ "" → key ≠ "" → hd "" (segments location) ≠ "" →
            Put tx location key value = (Some (BoltError ErrTxNotWritable), tx)).
  { intros Hloc Hkey Hfirst. unfold Put. fold (segments location).
    do 3 (rewrite decide_False by done).
    unfold Tx_CreateBucketIfNotExists, Bucket_CreateBucketIfNotExists,
      Bucket_CreateBucket. by rewrite Hw. }
  split.
  - destruct (decide (location = "")) as [->|Hloc]; [by eexists|].
    destruct (decide (key = "")) as [->|Hkey].
    { eexists. unfold Put. by rewrite decide_False, decide_True. }
    destruct (decide (hd "" (segments location) = "")) as [Hfirst|Hfirst].
    { eexists. unfold Put. fold (segments location).
      do 2 (rewrite decide_False by done). by rewrite decide_True. }
    eexists. by apply Hgen.
  - intros [Hloc Hne] Hkey. apply Hgen; try done.
    destruct (segments_cons location) as (first & rest & Hseg).
    rewrite Hseg in Hne |- *. simpl. by inversion Hne.
Qed.

Lemma Put_needs_writable_witness :
  writable readOnlyTx = false ∧ ValidLocation "users.chilts" ∧ "email" ≠ "" ∧
  Put readOnlyTx "users.chilts" "email" (Some [x61])
    = (Some (BoltError ErrTxNotWritable), readOnlyTx).
Proof.
  assert (Hw : writable readOnlyTx = false) by reflexivity.
  assert (Hv : ValidLocation "users.chilts").
  { split; [done|]. unfold segments. simpl. by repeat constructor. }
  assert (Hk : "email" ≠ "") by done.
  destruct (Put_needs_writable readOnlyTx "users.chilts" "email" (Some [x61]) Hw)
    as [_ Hput].
  exact (conj Hw (conj Hv (conj Hk (Hput Hv Hk)))).
Defined.

(** After a successful [Put] the chain is there, the key holds the value,
    and the transaction is writable. *)
Lemma Put_None_after tx location key value tx' :
  Put tx location key value = (None, tx') →
  ValidLocation location ∧ key ≠ "" ∧ writable tx' = true ∧
  (N.of_nat (String.length key) ≤ MaxKeySize)%N ∧
  (len value ≤ MaxValueSize)%N ∧
  ∃ m, resolve (root tx') (segments location) = Some m ∧
       m !! key = Some (Leaf value).
Proof.
  intros HPut.
  destruct (Put_cases _ _ _ _ _ _ HPut)
    as [[[? [=]] _] | (_ & Hvalid & tx2 & m & _ & _ & Hm & HP)].
  destruct (Bucket_Put_None_inv _ _ _ _ _ _ Hm HP)
    as (_ & Hkey & Hklen & Hvlen & _ & ->).
  split_and!; try done. exists (<[key := Leaf value]> m). simpl.
  split; [by apply resolve_modify | by rewrite lookup_insert_eq].
Qed.

(** X6.  A successful [Put] is idempotent: repeated with the same arguments
    on the transaction it produced, it succeeds again and changes
    nothing. *)
Theorem Put_idempotent tx location key value tx' :
  Put tx location key value = (None, tx') →
  Put tx' location key value = (None, tx').
Proof.
  intros HPut.
  destruct (Put_None_after _ _ _ _ _ HPut)
    as ([Hloc Hne] & Hkey & Hw & Hklen & Hvlen & m & Hm & Hk).
  rewrite Put_eq by done.
  rewrite (Put_loop_existing _ [] tx') by (simpl; eauto). simpl.
  rewrite (Bucket_Put_ok _ _ _ _ m) by (try done; intros d; by rewrite Hk).
  f_equal. destruct tx' as [w r]. simpl in *. subst w. f_equal.
  apply (modify_id _ _ _ m); [done|]. by apply insert_id.
Qed.

Lemma Put_idempotent_witness :
  Put emptyTx "a" "k" (Some [x01]) = (None, sampleTx) ∧
  Put sampleTx "a" "k" (Some [x01]) = (None, sampleTx).
Proof.
  assert (HPut : Put emptyTx "a" "k" (Some [x01]) = (None, sampleTx))
    by reflexivity.
  exact (conj HPut (Put_idempotent _ _ _ _ _ HPut)).
Defined.

(** X7.  The last write wins: once [Put] has succeeded at a location and
    key, a [Put] of any value within the store's value size at the same
    location and key succeeds, and [Get] then returns that value. *)
Theorem Put_overwrites tx location key value tx1 value2 :
  Put tx location key value = (None, tx1) →
  (len value2 ≤ MaxValueSize)%N →
  ∃ tx2, Put tx1 location key value2 = (None, tx2) ∧
         Get tx2 location key = ((value2, None), tx2).
Proof.
  intros HPut Hvlen2.
  destruct (Put_None_after _ _ _ _ _ HPut)
    as (Hvalid & Hkey & Hw & Hklen & _ & m & Hm & Hk).
  pose proof Hvalid as [Hloc Hne].
  eexists. split.
  - rewrite Put_eq by done.
    rewrite (Put_loop_existing _ [] tx1) by (simpl; eauto). simpl.
    by rewrite (Bucket_Put_ok _ _ _ _ m) by (try done; intros d; by rewrite Hk).
  - rewrite Get_value by done. simpl. unfold value_at.
    rewrite (resolve_modify _ _ m) by done. by rewrite lookup_insert_eq.
Qed.

Lemma Put_overwrites_witness :
  Put emptyTx "a" "k" (Some [x01]) = (None, sampleTx) ∧
  (len (Some [x02; x03]) ≤ MaxValueSize)%N ∧
  ∃ tx2, Put sampleTx "a" "k" (Some [x02; x03]) = (None, tx2) ∧
         Get tx2 "a" "k" = ((Some [x02; x03], None), tx2).
Proof.
  assert (HPut : Put emptyTx "a" "k" (Some [x01]) = (None, sampleTx))
    by reflexivity.
  assert (Hlen : (len (Some [x02; x03]) ≤ MaxValueSize)%N) by (by vm_compute).
  exact (conj HPut (conj Hlen (Put_overwrites _ _ _ _ _ _ HPut Hlen))).
Defined.

End put_success.

(** * The errors of Put, Get and GetBucket *)

Section error_cases.
Import bolt.

Implicit Types (tx : Tx) (location key : string) (value : bytes).

(** The outcomes of the read walk from a bucket that is there. *)
Lemma GetBucket_loop_cases names b tx ob oe tx' :
  is_Some (resolve (root tx) b) →
  GetBucket_loop names b tx = ((ob, oe), tx') →
  match ob, oe with
  | Some b', None =>
      b' = b ++ names ∧ Forall (λ name, name ≠ "") names ∧
      is_Some (resolve (root tx) b')
  | None, Some e => e = ErrInvalidLocationBucket ∧ "" ∈ names
  | None, None => ¬ is_Some (resolve (root tx) (b ++ names))
  | Some _, Some _ => False
  end.
Proof.
  revert b. induction names as [|name names IH]; intros b [m Hm]; simpl.
  - intros [= <- <- _]. rewrite app_nil_r. eauto.
  - case_decide as Hname.
    { intros [= <- <- _]. subst name. split; [done | by left]. }
    rewrite (Bucket_Bucket_resolve _ _ _ m) by done.
    replace (b ++ name :: names) with ((b ++ [name]) ++ names)
      by (by rewrite <-app_assoc).
    destruct (m !! name) as [[v|c]|] eqn:E.
    + intros [= <- <- _] Hsome. apply resolve_prefix in Hsome as [? Hsome].
      by rewrite (resolve_snoc _ m), E in Hsome.
    + intros Hloop. apply IH in Hloop.
      * destruct ob as [b'|], oe as [e|]; try done.
        -- destruct Hloop as (-> & Hne & Hsome). split_and!; try done.
           by apply Forall_cons.
        -- destruct Hloop as [-> Hin]. split; [done | by right].
      * by rewrite (resolve_snoc _ m), E.
    + intros [= <- <- _] Hsome. apply resolve_prefix in Hsome as [? Hsome].
      by rewrite (resolve_snoc _ m), E in Hsome.
Qed.

Lemma GetBucket_Some_inv tx location b oe tx' :
  GetBucket tx location = ((Some b, oe), tx') →
  ValidLocation location ∧ ChainExists tx location ∧
  b = segments location ∧ oe = None ∧ tx' = tx.
Proof.
  intros HGet.
  destruct (decide (location = "")) as [->|Hloc]; [done|].
  pose proof (GetBucket_tx tx location) as Htx.
  rewrite HGet in Htx. simpl in Htx. subst tx'.
  rewrite GetBucket_eq in HGet by done.
  apply GetBucket_loop_cases in HGet; [|by eexists].
  destruct oe as [e|]; [done|]. destruct HGet as (-> & Hne & Hsome).
  by split_and!.
Qed.

(** X8.  [GetBucket] returns a bucket exactly when the location is one of
    the data model and its whole chain is present; the bucket is then the
    one at the end of the chain, there is no error, and the transaction is
    unchanged. *)
Theorem GetBucket_finds_iff tx location b oe tx' :
  GetBucket tx location = ((Some b, oe), tx')
  ↔ ValidLocation location ∧ ChainExists tx location ∧
    b = segments location ∧ oe = None ∧ tx' = tx.
Proof.
  split; [apply GetBucket_Some_inv|].
  intros ([Hloc Hne] & [m Hm] & -> & -> & ->).
  rewrite GetBucket_eq by done.
  rewrite (GetBucket_loop_valid _ _ _ (root tx)) by done. by rewrite Hm.
Qed.

Lemma GetBucket_finds_iff_witness :
  ValidLocation "a" ∧ ChainExists sampleTx "a" ∧
  GetBucket sampleTx "a" = ((Some ["a"], None), sampleTx) ∧
  ¬ ChainExists sampleTx "a.k".
Proof.
  assert (Hv : ValidLocation "a").
  { split; [done|]. unfold segments. simpl. by repeat constructor. }
  assert (Hc : ChainExists sampleTx "a").
  { unfold ChainExists. vm_compute. eauto. }
  refine (conj Hv (conj Hc (conj
            (proj2 (GetBucket_finds_iff sampleTx "a" ["a"] None sampleTx)
               (conj Hv (conj Hc (conj eq_refl (conj eq_refl eq_refl))))) _))).
  intros Hchain.
  assert (Hfind : GetBucket sampleTx "a.k" = ((None, None), sampleTx))
    by reflexivity.
  assert (Hv' : ValidLocation "a.k").
  { split; [done|]. unfold segments. simpl. by repeat constructor. }
  pose proof (proj2 (GetBucket_finds_iff sampleTx "a.k" _ None sampleTx)
                (conj Hv' (conj Hchain (conj eq_refl (conj eq_refl eq_refl)))))
    as Hfound.
  rewrite Hfind in Hfound. discriminate.
Defined.

(** X9.  [Get] never returns an error of the store.  When it returns an
    error the value is nil and the error is the one of the empty location,
    the one of an empty segment (the location then has one), or, the
    location being one of the data model with its chain present, the one of
    the empty key.  With a location of the data model and a non-empty key it
    returns no error. *)
Theorem Get_error_cases tx location key v e tx' :
  Get tx location key = ((v, Some e), tx') →
  v = None ∧ tx' = tx ∧
  ((e = ErrLocationMustHaveAtLeastOneBucket ∧ location = "")
   ∨ (e = ErrInvalidLocationBucket ∧ location ≠ "" ∧ "" ∈ segments location)
   ∨ (e = ErrKeyNotProvided ∧ key = "" ∧
      ValidLocation location ∧ ChainExists tx location)).
Proof.
  intros HGet.
  pose proof (Get_tx tx location key) as Htx. rewrite HGet in Htx.
  simpl in Htx. subst tx'.
  destruct (decide (location = "")) as [->|Hloc].
  { unfold Get, GetBucket in HGet. rewrite decide_True in HGet by done.
    simplify_eq. eauto. }
  unfold Get in HGet.
  destruct (GetBucket tx location) as [[ob oe] tx1] eqn:HGB.
  destruct oe as [e1|].
  - rewrite GetBucket_eq in HGB by done.
    apply GetBucket_loop_cases in HGB; [|by eexists].
    destruct ob; [done|]. destruct HGB as [-> Hin].
    simplify_eq. split_and!; try done. right. left. done.
  - destruct ob as [b|]; [|done].
    apply GetBucket_Some_inv in HGB as (Hvalid & Hchain & -> & _ & ->).
    case_decide as Hkey.
    + simplify_eq. split_and!; try done. right. right. done.
    + by destruct (Bucket_Get (segments location) key tx).
Qed.

Lemma Get_error_cases_witness :
  Get sampleTx "a" "" = ((None, Some ErrKeyNotProvided), sampleTx) ∧
  ValidLocation "a" ∧ ChainExists sampleTx "a".
Proof.
  assert (HGet : Get sampleTx "a" ""
                 = ((None, Some ErrKeyNotProvided), sampleTx)) by reflexivity.
  destruct (Get_error_cases _ _ _ _ _ _ HGet)
    as (_ & _ & [[[=] _] | [[[=] _] | (_ & _ & Hv & Hc)]]).
  exact (conj HGet (conj Hv Hc)).
Defined.

(** The write walk from a bucket that is there fails on an empty name, on a
    transaction that is not writable, or on a name taken by a plain
    value. *)
Lemma Put_loop_inl_cases names b tx e tx' :
  is_Some (resolve (root tx) b) →
  Put_loop names b tx = (inl e, tx') →
  (e = ErrInvalidLocationBucket ∧ "" ∈ names)
  ∨ e = BoltError ErrTxNotWritable
  ∨ e = BoltError ErrIncompatibleValue.
Proof.
  revert b tx. induction names as [|name names IH]; intros b tx [m Hm]; simpl;
    [done|].
  case_decide as Hname.
  { intros [= <- _]. left. subst name. split; [done | by left]. }
  destruct (Bucket_CreateBucketIfNotExists b name tx) as [[e1|b1] tx1] eqn:E.
  - intros [= <- <-]. right. revert E.
    unfold Bucket_CreateBucketIfNotExists, Bucket_CreateBucket, Bucket_Bucket.
    destruct (writable tx); simpl; [|intros [= <- _]; by left].
    rewrite decide_False by done. rewrite Hm.
    destruct (m !! name) as [[v|c]|] eqn:E'; simpl; rewrite ?Hm, ?E';
      intros [= <- _]; by right.
  - intros Hloop. apply IH in Hloop as [[-> Hin]|Hloop]; eauto.
    + left. split; [done | by right].
    + destruct (CreateBucketIfNotExists_inr _ _ _ _ _ _ Hm E)
        as (-> & _ & _ & [(c & _ & _ & Hc)|[_ Hc]]); eauto.
Qed.

Lemma Put_Some_cases tx location key value e tx' :
  Put tx location key value = (Some e, tx') →
  (location = "" ∧ e = ErrLocationMustHaveAtLeastOneBucket)
  ∨ (location ≠ "" ∧ key = "" ∧ e = ErrKeyNotProvided)
  ∨ (location ≠ "" ∧ key ≠ "" ∧
     ((e = ErrInvalidLocationBucket ∧ "" ∈ segments location)
      ∨ e = BoltError ErrTxNotWritable
      ∨ e = BoltError ErrIncompatibleValue
      ∨ e = BoltError ErrKeyTooLarge
      ∨ e = BoltError ErrValueTooLarge)).
Proof.
  intros HPut.
  destruct (decide (location = "")) as [->|Hloc].
  { left. unfold Put in HPut. rewrite decide_True in HPut by done.
    by simplify_eq. }
  destruct (decide (key = "")) as [->|Hkey].
  { right. left. unfold Put in HPut.
    rewrite decide_False, decide_True in HPut by done. by simplify_eq. }
  right. right. split; [done|]. split; [done|].
  rewrite Put_eq in HPut by done.
  destruct (Put_loop (segments location) [] tx) as [[e1|b] tx2] eqn:Hloop.
  - simplify_eq.
    apply Put_loop_inl_cases in Hloop as [? | [? | ?]]; [eauto 6..|by eexists].
  - destruct (Put_loop_inr _ [] tx _ _ (mk_is_Some _ (root tx) eq_refl) Hloop)
      as (-> & [m Hm] & _ & _). simpl in *.
    revert HPut. unfold Bucket_Put.
    destruct (writable tx2); simpl; [|intros ?; simplify_eq; eauto 6].
    rewrite decide_False by done.
    destruct (MaxKeySize <? _)%N; [intros ?; simplify_eq; eauto 6|].
    destruct (MaxValueSize <? _)%N; [intros ?; simplify_eq; eauto 6|].
    rewrite Hm.
    destruct (m !! key) as [[v|c]|]; intros ?; simplify_eq; eauto 6.
Qed.

(** X10.  The errors of [Put]: the one of the empty location exactly for the
    empty location, the one of the empty key exactly for a non-empty
    location with an empty key, the one of an empty segment only for a
    location that has one; every other error comes from the store and is
    [ErrTxNotWritable], [ErrIncompatibleValue], [ErrKeyTooLarge] or
    [ErrValueTooLarge]. *)
Theorem Put_error_cases tx location key value e tx' :
  Put tx location key value = (Some e, tx') →
  (e = ErrLocationMustHaveAtLeastOneBucket ↔ location = "") ∧
  (e = ErrKeyNotProvided ↔ location ≠ "" ∧ key = "") ∧
  (e = ErrInvalidLocationBucket →
     location ≠ "" ∧ key ≠ "" ∧ "" ∈ segments location) ∧
  (e = ErrLocationMustHaveAtLeastOneBucket ∨ e = ErrKeyNotProvided
   ∨ e = ErrInvalidLocationBucket ∨ e = BoltError ErrTxNotWritable
   ∨ e = BoltError ErrIncompatibleValue ∨ e = BoltError ErrKeyTooLarge
   ∨ e = BoltError ErrValueTooLarge).
Proof.
  intros HPut.
  destruct (Put_Some_cases _ _ _ _ _ _ HPut)
    as [[-> ->] | [(Hloc & -> & ->) | (Hloc & Hkey & Hcase)]].
  - intuition (congruence || eauto 8).
  - intuition (congruence || eauto 8).
  - destruct Hcase as [[-> Hin] | [-> | [-> | [-> | ->]]]];
      intuition (congruence || eauto 8).
Qed.

Lemma Put_error_cases_witness :
  let e := BoltError ErrIncompatibleValue in
  Put sampleTx "a.k" "z" (Some [x02]) = (Some e, sampleTx) ∧
  (e = ErrLocationMustHaveAtLeastOneBucket ↔ "a.k" = "") ∧
  (e = ErrKeyNotProvided ↔ "a.k" ≠ "" ∧ "z" = "") ∧
  (e = ErrInvalidLocationBucket →
     "a.k" ≠ "" ∧ "z" ≠ "" ∧ "" ∈ segments "a.k") ∧
  (e = ErrLocationMustHaveAtLeastOneBucket ∨ e = ErrKeyNotProvided
   ∨ e = ErrInvalidLocationBucket ∨ e = BoltError ErrTxNotWritable
   ∨ e = BoltError ErrIncompatibleValue ∨ e = BoltError ErrKeyTooLarge
   ∨ e = BoltError ErrValueTooLarge).
Proof.
  assert (HPut : Put sampleTx "a.k" "z" (Some [x02])
                 = (Some (BoltError ErrIncompatibleValue), sampleTx))
    by reflexivity.
  exact (conj HPut (Put_error_cases _ _ _ _ _ _ HPut)).
Defined.

End error_cases.

(** * Keys and buckets share the names of a bucket *)

Section name_space.
Import bolt.

Implicit Types (tx : Tx) (location key : string) (value : bytes).

Lemma Put_not_writable tx location key value :
  writable tx = false →
  location ≠ "" → key ≠ "" → hd "" (segments location) ≠ "" →
  Put tx location key value = (Some (BoltError ErrTxNotWritable), tx).
Proof.
  intros Hw Hloc Hkey Hfirst. unfold Put. fold (segments location).
  do 3 (rewrite decide_False by done).
  unfold Tx_CreateBucketIfNotExists, Bucket_CreateBucketIfNotExists,
    Bucket_CreateBucket. by rewrite Hw.
Qed.

Lemma segments_not_empty_location location name names :
  segments location = name :: names → name ≠ "" → location ≠ "".
Proof.
  intros Hseg Hname ->. unfold segments in Hseg. simpl in Hseg. by simplify_eq.
Qed.

(** X11.  A value blocks the bucket of its name: once [Put] has stored a
    value under [key] at [location], a [Put] at any location that continues
    the path of [location] with the segment [key] fails with the store's
    [ErrIncompatibleValue] and changes nothing. *)
Theorem value_blocks_bucket
    tx location key value tx' location2 rest key2 value2 :
  Put tx location key value = (None, tx') →
  segments location2 = segments location ++ key :: rest →
  key2 ≠ "" →
  Put tx' location2 key2 value2 = (Some (BoltError ErrIncompatibleValue), tx').
Proof.
  intros HPut Hseg Hkey2.
  destruct (Put_None_after _ _ _ _ _ HPut)
    as ([Hloc Hne] & Hkey & Hw & _ & _ & m & Hm & Hk).
  assert (Hloc2 : location2 ≠ "").
  { destruct (segments_cons location) as (first & others & Hfo).
    rewrite Hfo in Hseg, Hne. simpl in Hseg.
    eapply segments_not_empty_location; [done|]. by inversion Hne. }
  rewrite Put_eq, Hseg, Put_loop_app by done.
  rewrite (Put_loop_existing _ [] tx') by (simpl; eauto). simpl.
  rewrite decide_False by done.
  unfold Bucket_CreateBucketIfNotExists, Bucket_CreateBucket.
  rewrite Hw. simpl. rewrite decide_False by done. by rewrite Hm, Hk.
Qed.

Lemma value_blocks_bucket_witness :
  Put emptyTx "a" "k" (Some [x01]) = (None, sampleTx) ∧
  segments "a.k.c" = segments "a" ++ "k" :: ["c"] ∧ "z" ≠ "" ∧
  Put sampleTx "a.k.c" "z" (Some [x02])
    = (Some (BoltError ErrIncompatibleValue), sampleTx).
Proof.
  assert (HPut : Put emptyTx "a" "k" (Some [x01]) = (None, sampleTx))
    by reflexivity.
  assert (Hseg : segments "a.k.c" = segments "a" ++ "k" :: ["c"])
    by reflexivity.
  assert (Hk : "z" ≠ "") by done.
  exact (conj HPut (conj Hseg (conj Hk
           (value_blocks_bucket _ _ _ _ _ "a.k.c" ["c"] "z" (Some [x02])
              HPut Hseg Hk)))).
Defined.

(** X12.  A bucket blocks the key of its name: when the chain of a location
    of the data model is present, the name of its last bucket, taken as a
    key of the bucket before it, reads as nil without error, and a [Put]
    under that key fails with an error of the store and changes nothing. *)
Theorem bucket_blocks_key tx location key value location2 :
  ValidLocation location2 → ChainExists tx location2 →
  segments location2 = segments location ++ [key] →
  Get tx location key = ((None, None), tx) ∧
  ∃ e, Put tx location key value = (Some (BoltError e), tx).
Proof.
  intros [Hloc2 Hne2] [c Hc] Hseg. rewrite Hseg in Hne2, Hc.
  apply Forall_app in Hne2 as [Hne Hkey].
  apply (proj1 (Forall_singleton _ _)) in Hkey. simpl in Hkey.
  assert (Hloc : location ≠ "").
  { destruct (segments_cons location) as (first & others & Hfo).
    eapply segments_not_empty_location; [done|]. rewrite Hfo in Hne.
    by inversion Hne. }
  assert (Hvalid : ValidLocation location) by (by split).
  pose proof (resolve_prefix _ _ _ (mk_is_Some _ _ Hc)) as [m Hm].
  rewrite (resolve_snoc _ m) in Hc by done.
  destruct (m !! key) as [[v|d]|] eqn:E; try done.
  split.
  - rewrite Get_value by done. unfold value_at. by rewrite Hm, E.
  - destruct (writable tx) eqn:Hw.
    + rewrite Put_eq by done.
      rewrite (Put_loop_existing _ [] tx) by (simpl; eauto). simpl.
      unfold Bucket_Put. rewrite Hw. simpl. rewrite decide_False by done.
      destruct (MaxKeySize <? _)%N; [eauto|].
      destruct (MaxValueSize <? _)%N; [eauto|]. rewrite Hm, E. eauto.
    + eexists. apply Put_not_writable; try done.
      destruct (segments_cons location) as (first & others & Hfo).
      rewrite Hfo in Hne |- *. simpl. by inversion Hne.
Qed.

Lemma bucket_blocks_key_witness :
  ValidLocation "a.b" ∧
  ChainExists (Put sampleTx "a.b" "k" (Some [x02])).2 "a.b" ∧
  segments "a.b" = segments "a" ++ ["b"] ∧
  Get (Put sampleTx "a.b" "k" (Some [x02])).2 "a" "b"
    = ((None, None), (Put sampleTx "a.b" "k" (Some [x02])).2) ∧
  ∃ e, Put (Put sampleTx "a.b" "k" (Some [x02])).2 "a" "b" (Some [x03])
       = (Some (BoltError e), (Put sampleTx "a.b" "k" (Some [x02])).2).
Proof.
  assert (Hv : ValidLocation "a.b").
  { split; [done|]. unfold segments. simpl. by repeat constructor. }
  assert (Hc : ChainExists (Put sampleTx "a.b" "k" (Some [x02])).2 "a.b").
  { unfold ChainExists. vm_compute. eauto. }
  assert (Hseg : segments "a.b" = segments "a" ++ ["b"]) by reflexivity.
  exact (conj Hv (conj Hc (conj Hseg
           (bucket_blocks_key _ "a" "b" (Some [x03]) "a.b" Hv Hc Hseg)))).
Defined.

End name_space.

(** * PutJson followed by GetJson *)

Section json_round_trip.
Import bolt.

Variables V Out : Type.
Variable json_Marshal : V → json.error + list byte.
Variable json_Unmarshal : list byte → Out → Out * option json.error.

(** X13.  When [PutJson] succeeds, the value was serialized to some bytes,
    and [GetJson] with the same location and key on the resulting
    transaction decodes exactly those bytes into its target: it returns the
    decoder's target and the decoder's error, if any. *)
Theorem PutJson_then_GetJson tx location key (v : V) tx' (out : Out) :
  PutJson V json_Marshal tx location key v = (None, tx') →
  ∃ b, json_Marshal v = inr b ∧
       GetJson Out json_Unmarshal tx' location key out =
         ((JsonError <$> (json_Unmarshal b out).2, (json_Unmarshal b out).1),
          tx').
Proof.
  unfold PutJson. destruct (json_Marshal v) as [e|b]; [done|].
  intros HPut. exists b. split; [done|].
  destruct (Put_None_after _ _ _ _ _ HPut)
    as (Hvalid & Hkey & _ & _ & _ & m & Hm & Hk).
  unfold GetJson. rewrite Get_value by done. unfold value_at.
  rewrite Hm, Hk. by destruct (json_Unmarshal b out) as [out' [e|]].
Qed.

End json_round_trip.

Lemma PutJson_then_GetJson_witness :
  PutJson N sampleMarshal emptyTx "animal" "dog" 7%N
    = (None, (Put emptyTx "animal" "dog" (Some [x07])).2) ∧
  ∃ b, sampleMarshal 7 = inr b ∧
       GetJson N sampleUnmarshal (Put emptyTx "animal" "dog" (Some [x07])).2
               "animal" "dog" 0%N
       = ((JsonError <$> (sampleUnmarshal b 0%N).2, (sampleUnmarshal b 0%N).1),
          (Put emptyTx "animal" "dog" (Some [x07])).2).
Proof.
  assert (HPut : PutJson N sampleMarshal emptyTx "animal" "dog" 7%N
                 = (None, (Put emptyTx "animal" "dog" (Some [x07])).2))
    by reflexivity.
  exact (conj HPut
           (PutJson_then_GetJson N N sampleMarshal sampleUnmarshal
              _ _ _ _ _ 0%N HPut)).
Defined.

(** * The earlier Put *)

Section earlier_version.
Import bolt.

Implicit Types (tx : Tx) (location key : string) (value : bytes).

Lemma legacy_Put_loop_valid names b tx :
  Forall (λ name, name ≠ "") names →
  legacy.Put_loop names b tx = Put_loop names b tx.
Proof.
  intros Hne. revert b tx.
  induction Hne as [|name names Hname _ IH]; intros b tx; simpl; [done|].
  rewrite decide_False by done.
  by destruct (Bucket_CreateBucketIfNotExists b name tx) as [[e|b'] tx'].
Qed.


Lemma legacy_Put_eq tx location key value :
  legacy.Put tx location key value =
    match legacy.Put_loop (segments location) [] tx with
    | (inl err, tx2) => (Some err, tx2)
    | (inr b, tx2) =>
        match Bucket_Put b key value tx2 with
        | (Some err, tx3) => (Some (BoltError err), tx3)
        | (None, tx3) => (None, tx3)
        end
    end.
Proof.
  unfold legacy.Put. fold (segments location).
  destruct (segments_cons location) as (first & rest & ->). simpl.
  unfold Tx_CreateBucketIfNotExists.
  by destruct (Bucket_CreateBucketIfNotExists [] first tx) as [[e|b'] tx'].
Qed.

(** X14.  On a location of the data model and a non-empty key the earlier
    [Put] and the present one return the same error and leave the same
    transaction. *)
Theorem legacy_Put_agrees tx location key value :
  ValidLocation location → key ≠ "" →
  legacy.Put tx location key value = Put tx location key value.
Proof.
  intros [Hloc Hne] Hkey.
  by rewrite legacy_Put_eq, Put_eq, legacy_Put_loop_valid.
Qed.

Lemma legacy_Put_agrees_witness :
  ValidLocation "users.chilts" ∧ "email" ≠ "" ∧
  legacy.Put sampleTx "users.chilts" "email" (Some [x61])
    = Put sampleTx "users.chilts" "email" (Some [x61]).
Proof.
  assert (Hv : ValidLocation "users.chilts").
  { split; [done|]. unfold segments. simpl. by repeat constructor. }
  assert (Hk : "email" ≠ "") by done.
  exact (conj Hv (conj Hk (legacy_Put_agrees sampleTx _ _ (Some [x61]) Hv Hk))).
Defined.



(** X16.  With an empty key the earlier [Put] walks the location before the
    store refuses the key: on a writable transaction, for a location of the
    data model none of whose names is taken by a plain value, it returns the
    store's [ErrKeyRequired] and leaves the whole container chain
    created. *)
Theorem legacy_Put_empty_key_creates tx location value :
  ValidLocation location → writable tx = true →
  creatable (root tx) (segments location) = true →
  ∃ tx', legacy.Put tx location "" value
           = (Some (BoltError ErrKeyRequired), tx') ∧
         ChainExists tx' location.
Proof.
  intros [Hloc Hne] Hw Hcr.
  rewrite legacy_Put_eq, legacy_Put_loop_valid by done.
  destruct (Put_loop_creatable _ [] tx (root tx) Hw Hne eq_refl Hcr)
    as [tx2 Hloop].
  rewrite Hloop. simpl.
  destruct (Put_loop_inr _ [] tx _ _ (mk_is_Some _ (root tx) eq_refl) Hloop)
    as (_ & Hsome & _ & Hw2).
  exists tx2. split; [|done].
  unfold Bucket_Put. by rewrite Hw2, Hw.
Qed.

Lemma legacy_Put_empty_key_creates_witness :
  ValidLocation "users.chilts" ∧ writable emptyTx = true ∧
  creatable (root emptyTx) (segments "users.chilts") = true ∧
  (∃ tx', legacy.Put emptyTx "users.chilts" "" (Some [x61])
            = (Some (BoltError ErrKeyRequired), tx') ∧
          ChainExists tx' "users.chilts") ∧
  Put emptyTx "users.chilts" "" (Some [x61]) = (Some ErrKeyNotProvided, emptyTx).
Proof.
  assert (Hv : ValidLocation "users.chilts").
  { split; [done|]. unfold segments. simpl. by repeat constructor. }
  assert (Hw : writable emptyTx = true) by reflexivity.
  assert (Hcr : creatable (root emptyTx) (segments "users.chilts") = true)
    by reflexivity.
  exact (conj Hv (conj Hw (conj Hcr (conj
           (legacy_Put_empty_key_creates emptyTx _ (Some [x61]) Hv Hw Hcr)
           eq_refl)))).
Defined.

End earlier_version.

(** * Put followed by GetBucket *)

Section put_then_bucket.
Import bolt.

(** X17.  After a successful [Put] the whole container chain of the location
    is present: [GetBucket] on the resulting transaction returns the bucket
    at the end of the chain and no error. *)
Theorem Put_then_GetBucket tx location key value tx' :
  Put tx location key value = (None, tx') →
  ChainExists tx' location ∧
  GetBucket tx' location = ((Some (segments location), None), tx').
Proof.
  intros HPut.
  destruct (Put_None_after _ _ _ _ _ HPut)
    as ([Hloc Hne] & _ & _ & _ & _ & m & Hm & _).
  split; [by eexists|].
  rewrite GetBucket_eq by done.
  rewrite (GetBucket_loop_valid _ _ _ (root tx')) by done. by rewrite Hm.
Qed.

Lemma Put_then_GetBucket_witness :
  Put emptyTx "users.chilts" "email" (Some [x61])
    = (None, (Put emptyTx "users.chilts" "email" (Some [x61])).2) ∧
  ChainExists (Put emptyTx "users.chilts" "email" (Some [x61])).2 "users.chilts" ∧
  GetBucket (Put emptyTx "users.chilts" "email" (Some [x61])).2 "users.chilts"
    = ((Some (segments "users.chilts"), None),
       (Put emptyTx "users.chilts" "email" (Some [x61])).2).
Proof.
  assert (HPut : Put emptyTx "users.chilts" "email" (Some [x61])
                 = (None, (Put emptyTx "users.chilts" "email" (Some [x61])).2))
    by reflexivity.
  exact (conj HPut (Put_then_GetBucket _ _ _ _ _ HPut)).
Defined.

End put_then_bucket.
